(** * component_vis.multimodel_evaluation

    A shallow embedding of [src/component_vis/multimodel_evaluation.py] and
    the properties of its three functions:

    - [similarity_evaluation]
    - [get_model_with_lowest_error]
    - [sort_models_by_error]

    Python values are modelled as follows.

    - CP tensors, datasets, similarity values and keyword values are opaque
      (type parameters): the module never inspects them.
    - The callbacks ([similarity_metric], [error_function]) are arbitrary
      Python callables: they read and write the interpreter state and may
      raise.  They are functions into the monad [eval], which threads a
      [World] and carries an exception.
    - An error value is a number, bare or boxed in a zero-dimensional array
      (the XArray case of the comment in [sort_models_by_error]): a binary64
      float, or an integer that 32 bits hold.  Floats are the [spec_float]
      of the standard library, compared with IEEE 754 semantics ([SFltb],
      [SFeqb]): a NaN compares false with everything.  Integers of 32 bits
      are binary64 numbers, and are compared as such.  Wider integers, which
      NumPy rounds when it compares them with a float, are outside the
      model.
    - [**kwargs] is a dictionary from names to values: a [gmap string]. *)

From Stdlib Require Import ZArith Lia Floats.SpecFloat.
From stdpp Require Import base option list sorting gmap strings.

Set Default Proof Using "Type".

(** ** Floats and error values *)

Module Float.

(** binary64 *)
Definition prec : Z := 53.
Definition emax : Z := 1024.

Definition inf : spec_float := S754_infinity false.
Definition nan : spec_float := S754_nan.

(** The float nearest to an integer, [float(z)]. *)
Definition of_Z (z : Z) : spec_float := binary_normalize prec emax z 0 false.

Definition ltb (a b : spec_float) : bool := SFltb a b.
Definition eqb (a b : spec_float) : bool := SFeqb a b.
Definition leb (a b : spec_float) : bool := SFleb a b.

Definition is_nan (a : spec_float) : bool :=
  match a with S754_nan => true | _ => false end.

(** The place of a float in the order of [SFcompare]: its class, then
    exponent and mantissa, negated for negative numbers.  A NaN has no
    place; the two zeros share one. *)
Definition key (f : spec_float) : option (Z * Z * Z) :=
  match f with
  | S754_nan => None
  | S754_infinity true => Some (-2, 0, 0)%Z
  | S754_infinity false => Some (2, 0, 0)%Z
  | S754_zero _ => Some (0, 0, 0)%Z
  | S754_finite true m e => Some (-1, - e, - Z.pos m)%Z
  | S754_finite false m e => Some (1, e, Z.pos m)%Z
  end.

Definition key_lt (a b : Z * Z * Z) : Prop :=
  (a.1.1 < b.1.1 ∨
   (a.1.1 = b.1.1 ∧ (a.1.2 < b.1.2 ∨ (a.1.2 = b.1.2 ∧ a.2 < b.2))))%Z.

End Float.

(** The integer that the 32 bits of [z] hold, in two's complement. *)
Definition int32 (z : Z) : Z := ((z + 2 ^ 31) mod 2 ^ 32 - 2 ^ 31)%Z.

(** What an error function returns: a Python [float], or a zero-dimensional
    array object holding one (an [xarray.DataArray], a [numpy.float64]);
    or a Python [int] that 32 bits hold, or a zero-dimensional array object
    of an integer type holding one (an integer [xarray.DataArray], a
    [numpy.int32]). *)
Inductive error_value : Type :=
  | PyFloat (f : spec_float)
  | Boxed (f : spec_float)
  | PyInt (z : Z)
  | BoxedInt32 (z : Z).

(** The number held, as a binary64 number: an integer of 32 bits is one. *)
Definition unbox (e : error_value) : spec_float :=
  match e with
  | PyFloat f | Boxed f => f
  | PyInt z | BoxedInt32 z => Float.of_Z (int32 z)
  end.

(** [np.inf] *)
Definition np_inf : error_value := PyFloat Float.inf.

(** [a < b], [a == b] and [a <= b] taken as truth values: the comparison of
    the numbers held, whether boxed or not. *)
Definition err_lt (a b : error_value) : bool := Float.ltb (unbox a) (unbox b).
Definition err_eq (a b : error_value) : bool := Float.eqb (unbox a) (unbox b).
Definition err_le (a b : error_value) : bool := Float.leb (unbox a) (unbox b).

Definition err_is_nan (a : error_value) : bool := Float.is_nan (unbox a).

(** [np.asarray(error).item()]: the element of the zero-dimensional array as
    a standard Python scalar, a [float] for an array of floats and an [int]
    for an array of integers. *)
Definition np_asarray_item (error : error_value) : error_value :=
  match error with
  | PyFloat f | Boxed f => PyFloat f
  | PyInt z | BoxedInt32 z => PyInt z
  end.

Definition is_plain_float (e : error_value) : Prop := ∃ f, e = PyFloat f.

Definition is_plain_int (e : error_value) : Prop := ∃ z, e = PyInt z.

(** The error is a float, boxed or not. *)
Definition is_float_valued (e : error_value) : Prop :=
  match e with PyFloat _ | Boxed _ => True | PyInt _ | BoxedInt32 _ => False end.

(** ** Evaluation: interpreter state and exceptions *)

Inductive outcome (World Exn A : Type) : Type :=
  | Returns (a : A) (w : World)
  | Raises (e : Exn) (w : World).
Arguments Returns {World Exn A} a w.
Arguments Raises {World Exn A} e w.

Definition eval (World Exn A : Type) : Type := World → outcome World Exn A.

Global Instance eval_ret {World Exn} : MRet (eval World Exn) :=
  λ A a w, Returns a w.

Global Instance eval_bind {World Exn} : MBind (eval World Exn) :=
  λ A B k m w,
    match m w with
    | Returns a w' => k a w'
    | Raises e w' => Raises e w'
    end.

Global Instance eval_fmap {World Exn} : FMap (eval World Exn) :=
  λ A B g m w,
    match m w with
    | Returns a w' => Returns (g a) w'
    | Raises e w' => Raises e w'
    end.

(** A computation that touches no state: it returns or raises at once. *)
Definition lift_result {World Exn A} (r : Exn + A) : eval World Exn A :=
  λ w, match r with inl e => Raises e w | inr a => Returns a w end.

Global Instance result_ret {Exn} : MRet (sum Exn) := λ A a, inr a.
Global Instance result_bind {Exn} : MBind (sum Exn) :=
  λ A B k r, match r with inl e => inl e | inr a => k a end.

(** [[f(x) for x in xs]] *)
Fixpoint list_comprehension {World Exn A B}
    (f : A → eval World Exn B) (xs : list A) : eval World Exn (list B) :=
  match xs with
  | [] => mret []
  | x :: xs' =>
      y ← f x;
      ys ← list_comprehension f xs';
      mret (y :: ys)
  end.

(** [for i, x in enumerate(xs): st = body(st, i, x)], counting from [i]. *)
Fixpoint for_enumerate {World Exn St A}
    (body : St → nat → A → eval World Exn St)
    (i : nat) (xs : list A) (st : St) : eval World Exn St :=
  match xs with
  | [] => mret st
  | x :: xs' =>
      st' ← body st i x;
      for_enumerate body (S i) xs' st'
  end.

(** ** [sorted]

    The builtin sorts with [<] only and is stable.  It is modelled by the
    insertion sort that places each item after the last one it is not
    smaller than, comparing from the right end of the part already sorted
    (kept in reverse): on an input that is already ascending this asks
    [a[i] < a[i-1]] for each [i] and nothing else.  A comparison that raises
    ends the sort with that exception.  CPython's list sort asks other
    comparisons, always of a later item with an earlier one; the two give
    the same result when [<] is a consistent order on the items. *)
Section Sorted.
Context {Exn A : Type}.
Variable lt : A → A → Exn + bool.

Fixpoint insert_from_right (x : A) (racc : list A) : Exn + list A :=
  match racc with
  | [] => inr [x]
  | y :: racc' =>
      b ← lt x y;
      if b : bool
      then racc'' ← insert_from_right x racc'; mret (y :: racc'')
      else mret (x :: y :: racc')
  end.

Fixpoint sort_onto (racc : list A) (l : list A) : Exn + list A :=
  match l with
  | [] => inr racc
  | x :: l' => racc' ← insert_from_right x racc; sort_onto racc' l'
  end.

Definition sorted (l : list A) : Exn + list A :=
  racc ← sort_onto [] l; mret (reverse racc).
End Sorted.

(** ** The module *)

Section MultimodelEvaluation.
Context {CPTensor Dataset Similarity KwValue World Exn : Type}.

Local Abbreviation M := (eval World Exn).
Local Abbreviation kwargs_t := (gmap string KwValue).

(** The defaults come from sibling modules:
    [factor_tools.factor_match_score] and [model_evaluation.relative_sse]. *)
Variable factor_match_score : CPTensor → CPTensor → kwargs_t → M Similarity.
Variable relative_sse : CPTensor → Dataset → M error_value.

(** [m1 == m2] and [m1 < m2] on CP tensors, as truth values; either may
    raise (tuples of arrays, objects without an ordering). *)
Variable cp_tensor_eq : CPTensor → CPTensor → Exn + bool.
Variable cp_tensor_lt : CPTensor → CPTensor → Exn + bool.

Definition similarity_evaluation
    (cp_tensor : CPTensor) (comparison_cp_tensors : list CPTensor)
    (similarity_metric : option (CPTensor → CPTensor → kwargs_t → M Similarity))
    (kwargs : kwargs_t) : M (list Similarity) :=
  let similarity_metric := default factor_match_score similarity_metric in
  list_comprehension
    (λ comparison_cp_tensor,
       similarity_metric cp_tensor comparison_cp_tensor kwargs)
    comparison_cp_tensors.

(** The local variables of [get_model_with_lowest_error]. *)
Record locals : Type := Locals {
  selected_cp_tensor : option CPTensor;
  selected_index : option nat;
  lowest_sse : error_value;
  all_sse : list error_value
}.

(** The body of the loop after the call of the error function:
    [all_sse.append(sse)], then the three assignments under
    [if sse < lowest_sse]. *)
Definition record_error (st : locals) (i : nat) (cp_tensor : CPTensor)
    (sse : error_value) : locals :=
  let all_sse' := all_sse st ++ [sse] in
  if err_lt sse (lowest_sse st)
  then Locals (Some cp_tensor) (Some i) sse all_sse'
  else Locals (selected_cp_tensor st) (selected_index st)
              (lowest_sse st) all_sse'.

Definition loop_body (error_function : CPTensor → Dataset → M error_value)
    (X : Dataset) (st : locals) (i : nat) (cp_tensor : CPTensor) : M locals :=
  sse ← error_function cp_tensor X;
  mret (record_error st i cp_tensor sse).

Definition get_model_with_lowest_error
    (cp_tensors : list CPTensor) (X : Dataset)
    (error_function : option (CPTensor → Dataset → M error_value))
    : M (option CPTensor * option nat * list error_value) :=
  let error_function := default relative_sse error_function in
  st ← for_enumerate (loop_body error_function X) 0 cp_tensors
         (Locals None None np_inf []);
  mret (selected_cp_tensor st, selected_index st, all_sse st).

(** [(e1, m1) < (e2, m2)] on tuples: the first components decide unless
    they are equal, and then the second ones are compared, first with
    [==] and then with [<].  Errors are compared by value.  Python takes
    one and the same object as equal to itself before it asks [==], which
    differs from the value for a NaN only: the properties that depend on
    the comparison of two NaN are stated for errors without NaN. *)
Definition tuple_lt (p q : error_value * CPTensor) : Exn + bool :=
  if err_eq p.1 q.1
  then same ← cp_tensor_eq p.2 q.2;
       if same : bool then mret false else cp_tensor_lt p.2 q.2
  else mret (err_lt p.1 q.1).

Definition sort_models_by_error
    (cp_tensors : list CPTensor) (X : Dataset)
    (error_function : option (CPTensor → Dataset → M error_value))
    : M (list CPTensor * list error_value) :=
  errors ← (λ r, r.2) <$> get_model_with_lowest_error cp_tensors X error_function;
  sorted_tensors ← lift_result (sorted tuple_lt (zip errors cp_tensors));
  mret (sorted_tensors.*2,
        (λ p, np_asarray_item p.1) <$> sorted_tensors).

End MultimodelEvaluation.

Arguments locals : clear implicits.

(** ** Notions used to state the properties *)

Section Notions.
Context {CPTensor Dataset World Exn : Type}.

(** The calls [error_function(cp_tensor, X)], one per model, in order. *)
Definition error_calls
    (error_function : CPTensor → Dataset → eval World Exn error_value)
    (X : Dataset) (cp_tensors : list CPTensor) : eval World Exn (list error_value) :=
  list_comprehension (λ cp_tensor, error_function cp_tensor X) cp_tensors.

(** [i] is the first place of the least error: that error is below
    [np.inf], no error is below it, and every error before it is
    neither below it nor equal to it. *)
Definition first_minimum (errors : list error_value) (i : nat) : Prop :=
  ∃ e, errors !! i = Some e ∧ err_lt e np_inf = true ∧
    (∀ j e', errors !! j = Some e' → err_lt e' e = false) ∧
    (∀ j e', j < i → errors !! j = Some e' → err_le e' e = false).

(** [i] is the first place of the least error, read without regard to
    [np.inf]: the error there is at most every error, and below every
    error before it. *)
Definition first_least (errors : list error_value) (i : nat) : Prop :=
  ∃ e, errors !! i = Some e ∧
    (∀ j e', errors !! j = Some e' → err_le e e' = true) ∧
    (∀ j e', j < i → errors !! j = Some e' → err_lt e e' = true).

(** What the loop of [get_model_with_lowest_error] maintains, after the
    models [cp_tensors] with the errors [errors]. *)
Record selection_invariant (cp_tensors : list CPTensor)
    (errors : list error_value) (st : locals CPTensor) : Prop := {
  inv_all_sse : all_sse st = errors;
  inv_length : length errors = length cp_tensors;
  inv_lowest : ∀ j e', errors !! j = Some e' → err_lt e' (lowest_sse st) = false;
  inv_selected :
    (selected_cp_tensor st = None ∧ selected_index st = None ∧
     lowest_sse st = np_inf) ∨
    (∃ k m, selected_index st = Some k ∧ selected_cp_tensor st = Some m ∧
       cp_tensors !! k = Some m ∧ errors !! k = Some (lowest_sse st) ∧
       err_lt (lowest_sse st) np_inf = true ∧
       ∀ j e', j < k → errors !! j = Some e' → err_le e' (lowest_sse st) = false)
}.

Definition non_decreasing (errors : list error_value) : Prop :=
  ∀ i j a b, i < j → errors !! i = Some a → errors !! j = Some b →
    err_le a b = true.


(** The state in which a computation ends. *)
Definition final_world {A} (o : outcome World Exn A) : World :=
  match o with Returns _ w | Raises _ w => w end.
End Notions.

(** A fallible computation that returns. *)
Definition returns {Exn A} (r : Exn + A) : Prop := ∃ a, r = inr a.

(** [u] stands before [v] on the word of a comparison of the two: [v < u]
    was false, or [u < v] was true. *)
Definition placed_by {Exn A} (lt : A → A → Exn + bool) (u v : A) : Prop :=
  lt v u = inr false ∨ lt u v = inr true.

(** A callable without effects other than being called: it returns the
    value of a function and appends its arguments to the log of calls, which
    is the whole interpreter state. *)
Definition logged2 {Exn A B C} (f : A → B → C)
    : A → B → eval (list (A * B)) Exn C :=
  λ a b log, Returns (f a b) (log ++ [(a, b)]).

Definition logged3 {Exn A B C D} (f : A → B → C → D)
    : A → B → C → eval (list (A * B * C)) Exn D :=
  λ a b c log, Returns (f a b c) (log ++ [(a, b, c)]).

(** ** Sample inputs *)

Module Sample.
(** Models and the dataset are named by numbers, exceptions by the name
    of their class. *)
Definition dataset : nat := 0.

(** CP tensors are tuples of arrays: [==] is true on one and the same
    object and raises on two different ones (the truth value of an array
    is ambiguous); [<] raises. *)
Definition array_eq (a b : nat) : string + bool :=
  if decide (a = b) then inr true else inl "ValueError"%string.
Definition array_lt (a b : nat) : string + bool := inl "TypeError"%string.

(** Models that are plain numbers compare as numbers. *)
Definition number_eq (a b : nat) : string + bool := inr (bool_decide (a = b)).
Definition number_lt (a b : nat) : string + bool := inr (bool_decide (a < b)).

Definition float (z : Z) : error_value := PyFloat (Float.of_Z z).
Definition boxed (z : Z) : error_value := Boxed (Float.of_Z z).

(** The error function that looks the error of model [m] up in a table. *)
Definition table_error (table : list error_value) (m : nat) (X : nat)
    : error_value :=
  default (PyFloat Float.nan) (table !! m).

Definition errors_5_2_8_2 : list error_value := [float 5; float 2; float 8; float 2].
Definition errors_inf_nan : list error_value := [np_inf; PyFloat Float.nan].
Definition errors_2_nan_1 : list error_value := [float 2; PyFloat Float.nan; float 1].
Definition errors_tie : list error_value := [float 1; float 1].
Definition errors_30_10_40_20 : list error_value := [boxed 30; boxed 10; boxed 40; boxed 20].
Definition errors_10_20_30_40 : list error_value := [float 10; float 20; float 30; float 40].

(** The log after one call for each of the models [0 .. n-1]. *)
Definition calls (n : nat) : list (nat * nat) := (λ m, (m, dataset)) <$> seq 0 n.

(** Never called in the samples: every call names its function. *)
Definition no_metric : nat → nat → gmap string nat → eval (list (nat * nat * gmap string nat)) string nat :=
  λ _ _ _ w, Raises "NotImplementedError"%string w.
Definition no_error_function : nat → nat → eval (list (nat * nat)) string error_value :=
  λ _ _ w, Raises "NotImplementedError"%string w.

Definition run_lowest (table : list error_value) (models : list nat) :=
  get_model_with_lowest_error no_error_function models dataset
    (Some (logged2 (table_error table))) [].

Definition run_sort eq lt (table : list error_value) (models : list nat) :=
  sort_models_by_error no_error_function eq lt models dataset
    (Some (logged2 (table_error table))) [].
End Sample.

(** ** Notions and sample inputs for the further properties *)

(** No two entries at different places have equal errors. *)
Definition pairwise_distinct (errors : list error_value) : Prop :=
  ∀ i j e1 e2, i ≠ j → errors !! i = Some e1 → errors !! j = Some e2 →
    err_eq e1 e2 = false.

(** No error is below or equal to the one just before it. *)
Definition never_steps_down (errors : list error_value) : Prop :=
  ∀ i a b, errors !! i = Some a → errors !! S i = Some b →
    err_eq b a = false ∧ err_lt b a = false.

(** The error at the selected index, [np.inf] when none is selected. *)
Definition lowest_error (index : option nat) (errors : list error_value)
    : error_value :=
  default np_inf (index ≫= (errors !!.)).

(** The selection on models followed by further models, from the results
    [first] and [second] on the two parts: the second selection, moved by the
    number [n] of the first models, when its error is below that of the first
    one, and else the first. *)
Definition combine_selection {CPTensor} (n : nat)
    (first second : option CPTensor * option nat * list error_value)
    : option CPTensor * option nat :=
  match second.1.2 with
  | Some j =>
      if err_lt (lowest_error second.1.2 second.2) (lowest_error first.1.2 first.2)
      then (second.1.1, Some (n + j))
      else first.1
  | None => first.1
  end.

Module IntSample.
(** Errors that are integers boxed in zero-dimensional arrays, and the
    Python integers they hold. *)
Definition errors_30_10_40_20 : list error_value :=
  [BoxedInt32 30; BoxedInt32 10; BoxedInt32 40; BoxedInt32 20].
Definition errors_10_20_30_40 : list error_value :=
  [PyInt 10; PyInt 20; PyInt 30; PyInt 40].
End IntSample.

Module Failing.
(** Callables that log their call and then raise on the model [bad]. *)
Definition metric (bad : nat)
    : nat → nat → gmap string nat → eval (list (nat * nat * gmap string nat)) string nat :=
  λ a b kw log,
    if decide (b = bad)
    then Raises "ValueError"%string (log ++ [(a, b, kw)])
    else Returns (a + b) (log ++ [(a, b, kw)]).

Definition error_function (bad : nat) (table : list error_value)
    : nat → nat → eval (list (nat * nat)) string error_value :=
  λ m X log,
    if decide (m = bad)
    then Raises "ValueError"%string (log ++ [(m, X)])
    else Returns (Sample.table_error table m X) (log ++ [(m, X)]).
End Failing.

(** ** The order of floats *)

Module FloatFacts.
Import Float.

Local Ltac by_keys open :=
  split;
  [ try discriminate; intros _; repeat eexists; simpl; try lia
  | try reflexivity; open; simplify_eq/=; lia ].

Local Ltac finite_cases ea eb ma mb :=
  change (Pos.compare_cont Eq ma mb) with (Pos.compare ma mb);
  destruct (Z.compare_spec ea eb);
  [ subst; destruct (Pos.compare_spec ma mb); try subst | | ]; simpl.

Lemma ltb_key a b :
  ltb a b = true ↔ ∃ ka kb, key a = Some ka ∧ key b = Some kb ∧ key_lt ka kb.
Proof.
  unfold ltb, SFltb, key_lt.
  destruct a as [[]|[]| |[] ma ea], b as [[]|[]| |[] mb eb]; simpl;
    try finite_cases ea eb ma mb; by_keys ltac:(intros (? & ? & ? & ? & ?)).
Qed.

Lemma eqb_key a b :
  eqb a b = true ↔ ∃ k, key a = Some k ∧ key b = Some k.
Proof.
  unfold eqb, SFeqb.
  destruct a as [[]|[]| |[] ma ea], b as [[]|[]| |[] mb eb]; simpl;
    try finite_cases ea eb ma mb; by_keys ltac:(intros (? & ? & ?)).
Qed.

Lemma leb_ltb_eqb a b : leb a b = ltb a b || eqb a b.
Proof.
  unfold leb, ltb, eqb, SFleb, SFltb, SFeqb.
  by destruct (SFcompare a b) as [[]|].
Qed.

Lemma is_nan_key a : is_nan a = false ↔ ∃ k, key a = Some k.
Proof. destruct a as [[]|[]| |[] ? ?]; simpl; split; try done; try (by eauto); by intros [? ?]. Qed.

(** Every fact below is arithmetic on keys. *)
Ltac to_keys :=
  repeat match goal with
  | H : ltb _ _ = false |- _ => apply not_true_iff_false in H; rewrite ltb_key in H
  | H : ltb _ _ = true |- _ => apply ltb_key in H; destruct H as (? & ? & ? & ? & ?)
  | H : eqb _ _ = false |- _ => apply not_true_iff_false in H; rewrite eqb_key in H
  | H : eqb _ _ = true |- _ => apply eqb_key in H; destruct H as (? & ? & ?)
  | H : is_nan _ = false |- _ => apply is_nan_key in H; destruct H as (? & ?)
  | H : leb _ _ = _ |- _ => rewrite leb_ltb_eqb in H
  | H : _ || _ = true |- _ => apply orb_true_iff in H; destruct H
  | H : _ || _ = false |- _ => apply orb_false_iff in H; destruct H
  end; simplify_eq.

Lemma ltb_irrefl a : ltb a a = false.
Proof.
  apply not_true_iff_false. intros H. to_keys. unfold key_lt in *. lia.
Qed.

Lemma ltb_trans a b c : ltb a b = true → ltb b c = true → ltb a c = true.
Proof.
  intros Hab Hbc. to_keys. apply ltb_key. eexists _, _. split_and!; eauto.
  unfold key_lt in *. lia.
Qed.

Lemma leb_ltb_trans a b c : leb a b = true → ltb b c = true → ltb a c = true.
Proof.
  intros Hab Hbc. to_keys; [ by eapply ltb_trans; apply ltb_key; eauto 10 | ].
  apply ltb_key. eauto 10.
Qed.

Lemma leb_trans a b c : leb a b = true → leb b c = true → leb a c = true.
Proof.
  intros Hab Hbc. rewrite leb_ltb_eqb. apply orb_true_iff.
  to_keys.
  - left. apply ltb_key. eexists _, _. split_and!; eauto. unfold key_lt in *. lia.
  - left. apply ltb_key. eauto 10.
  - left. apply ltb_key. eauto 10.
  - right. apply eqb_key. eauto.
Qed.

Lemma eqb_sym a b : eqb a b = true → eqb b a = true.
Proof. intros H. to_keys. apply eqb_key. eauto. Qed.

Lemma ltb_not_nan a b : ltb a b = true → is_nan a = false ∧ is_nan b = false.
Proof. intros H. to_keys. split; apply is_nan_key; eauto. Qed.

Lemma leb_total a b :
  is_nan a = false → is_nan b = false → ltb a b = false → leb b a = true.
Proof.
  intros Ha Hb Hab. rewrite leb_ltb_eqb. apply orb_true_iff.
  to_keys.
  match goal with
  | Ha : key a = Some ?ka, Hb : key b = Some ?kb |- _ =>
      destruct (decide (ka = kb)) as [->|Hne];
      [ right; apply eqb_key; eauto
      | left; apply ltb_key; eexists _, _; split_and!; eauto;
        assert (¬ key_lt ka kb) by (intros ?; apply Hab; eauto 10);
        destruct ka as [[??]?], kb as [[??]?]; unfold key_lt in *; simpl in *;
        assert (¬ (z = z2 ∧ z0 = z3 ∧ z1 = z4)) by (intros (?&?&?); simplify_eq); lia ]
  end.
Qed.
End FloatFacts.

(** ** The order of error values *)

Section ErrorOrder.
Implicit Types a b c : error_value.

Lemma err_lt_irrefl a : err_lt a a = false.
Proof. apply FloatFacts.ltb_irrefl. Qed.

Lemma err_lt_trans a b c : err_lt a b = true → err_lt b c = true → err_lt a c = true.
Proof. apply FloatFacts.ltb_trans. Qed.

Lemma err_le_lt_trans a b c : err_le a b = true → err_lt b c = true → err_lt a c = true.
Proof. apply FloatFacts.leb_ltb_trans. Qed.

Lemma err_le_trans a b c : err_le a b = true → err_le b c = true → err_le a c = true.
Proof. apply FloatFacts.leb_trans. Qed.

Lemma err_le_lt_eq a b : err_le a b = err_lt a b || err_eq a b.
Proof. apply FloatFacts.leb_ltb_eqb. Qed.

Lemma err_lt_le a b : err_lt a b = true → err_le a b = true.
Proof. intros H. by rewrite err_le_lt_eq, H. Qed.

Lemma err_eq_le a b : err_eq a b = true → err_le a b = true ∧ err_le b a = true.
Proof.
  intros H. assert (H' : err_eq b a = true) by by apply FloatFacts.eqb_sym.
  rewrite !err_le_lt_eq, H, H'. by rewrite !orb_true_r.
Qed.

Lemma err_le_total a b :
  err_is_nan a = false → err_is_nan b = false → err_lt a b = false → err_le b a = true.
Proof. apply FloatFacts.leb_total. Qed.

Lemma err_lt_not_nan a b : err_lt a b = true → err_is_nan a = false ∧ err_is_nan b = false.
Proof. apply FloatFacts.ltb_not_nan. Qed.

(** A smaller error keeps what was not below the larger one not below it. *)
Lemma err_lt_lower a b c : err_lt a c = false → err_lt b c = true → err_lt a b = false.
Proof.
  intros Hac Hbc. destruct (err_lt a b) eqn:Hab; [ | done ].
  by rewrite (err_lt_trans _ _ _ Hab Hbc) in Hac.
Qed.

Lemma err_le_lower a b c : err_lt a c = false → err_lt b c = true → err_le a b = false.
Proof.
  intros Hac Hbc. destruct (err_le a b) eqn:Hab; [ | done ].
  by rewrite (err_le_lt_trans _ _ _ Hab Hbc) in Hac.
Qed.

Lemma unbox_item a : unbox (np_asarray_item a) = unbox a.
Proof. by destruct a. Qed.

Lemma err_le_item a b : err_le (np_asarray_item a) (np_asarray_item b) = err_le a b.
Proof. unfold err_le. by rewrite !unbox_item. Qed.
End ErrorOrder.

(** ** Loops in the evaluation monad *)

Section Loops.
Context {World Exn : Type}.
Local Abbreviation M := (eval World Exn).

Lemma list_comprehension_snoc {A B} (f : A → M B) xs x w :
  list_comprehension f (xs ++ [x]) w =
  (ys ← list_comprehension f xs; y ← f x; mret (ys ++ [y])) w.
Proof.
  revert w. induction xs as [|x0 xs IH]; intros w; simpl.
  - unfold mbind, eval_bind, mret, eval_ret. by destruct (f x w).
  - unfold mbind, eval_bind in *. destruct (f x0 w) as [y0 w0|]; [ | done ].
    rewrite IH. destruct (list_comprehension f xs w0) as [ys w1|]; [ | done ].
    simpl. by destruct (f x w1).
Qed.

Lemma for_enumerate_snoc {St A} (body : St → nat → A → M St) i xs x st w :
  for_enumerate body i (xs ++ [x]) st w =
  (st' ← for_enumerate body i xs st; body st' (i + length xs) x) w.
Proof.
  revert i st w. induction xs as [|x0 xs IH]; intros i st w; simpl.
  - unfold mbind, eval_bind, mret, eval_ret. rewrite Nat.add_0_r.
    by destruct (body st i x w).
  - unfold mbind, eval_bind in *. destruct (body st i x0 w) as [st0 w0|]; [ | done ].
    rewrite IH. by replace (S i + length xs) with (i + S (length xs)) by lia.
Qed.

Lemma list_comprehension_length {A B} (f : A → M B) xs w ys w' :
  list_comprehension f xs w = Returns ys w' → length ys = length xs.
Proof.
  revert w ys. induction xs as [|x xs IH]; intros w ys; simpl.
  - by intros [= <- <-].
  - unfold mbind, eval_bind. destruct (f x w) as [y w0|]; [ | done ].
    destruct (list_comprehension f xs w0) as [ys0 w1|] eqn:Hxs; [ | done ].
    intros [= <- <-]. simpl. f_equal. eauto.
Qed.

(** Each value of a comprehension is what a call on its item returned. *)
Lemma list_comprehension_calls {A B} (f : A → M B) xs w ys w' :
  list_comprehension f xs w = Returns ys w' →
  Forall2 (λ x y, ∃ w1 w2, f x w1 = Returns y w2) xs ys.
Proof.
  revert w ys. induction xs as [|x xs IH]; intros w ys; simpl.
  - intros [= <- <-]. constructor.
  - unfold mbind, eval_bind. destruct (f x w) as [y w0|] eqn:Hx; [ | done ].
    destruct (list_comprehension f xs w0) as [ys0 w1|] eqn:Hxs; [ | done ].
    intros [= <- <-]. constructor; eauto.
Qed.

(** A comprehension changes nothing that no call changes. *)
Lemma list_comprehension_frame {A B T} (obs : World → T) (f : A → M B) xs w :
  (∀ x w0, obs (final_world (f x w0)) = obs w0) →
  obs (final_world (list_comprehension f xs w)) = obs w.
Proof.
  intros Hf. revert w. induction xs as [|x xs IH]; intros w; simpl; [ done | ].
  unfold mbind, eval_bind. specialize (Hf x w).
  destruct (f x w) as [y w0|]; [ | done ].
  specialize (IH w0). destruct (list_comprehension f xs w0); simpl in *; congruence.
Qed.
End Loops.

(** A comprehension over a logged function returns the values of the
    function and logs one call for each item, in order. *)
Lemma list_comprehension_logged2 {Exn A B C} (f : A → B → C) (b : B) xs log :
  list_comprehension (λ x, logged2 (Exn := Exn) f x b) xs log =
  Returns ((λ x, f x b) <$> xs) (log ++ ((λ x, (x, b)) <$> xs)).
Proof.
  revert log. induction xs as [|x xs IH]; intros log; simpl.
  - by rewrite app_nil_r.
  - unfold mbind, eval_bind, logged2 at 1. rewrite IH. simpl.
    by rewrite <- app_assoc.
Qed.

Lemma list_comprehension_logged3 {Exn A B C D} (f : A → B → C → D) a c xs log :
  list_comprehension (λ x, logged3 (Exn := Exn) f a x c) xs log =
  Returns ((λ x, f a x c) <$> xs) (log ++ ((λ x, (a, x, c)) <$> xs)).
Proof.
  revert log. induction xs as [|x xs IH]; intros log; simpl.
  - by rewrite app_nil_r.
  - unfold mbind, eval_bind, logged3 at 1. rewrite IH. simpl.
    by rewrite <- app_assoc.
Qed.

(** ** The loop of [get_model_with_lowest_error] *)

Section Selection.
Context {CPTensor Dataset World Exn : Type}.
Local Abbreviation M := (eval World Exn).
Implicit Types (cp_tensors : list CPTensor) (errors : list error_value).
Implicit Types (st : locals CPTensor) (X : Dataset).

Lemma selection_invariant_init :
  selection_invariant (CPTensor := CPTensor) [] [] (Locals None None np_inf []).
Proof. split; simpl; [ done | done | done | by left ]. Qed.

Lemma record_error_invariant cp_tensors errors st cp_tensor sse :
  selection_invariant cp_tensors errors st →
  selection_invariant (cp_tensors ++ [cp_tensor]) (errors ++ [sse])
    (record_error st (length cp_tensors) cp_tensor sse).
Proof.
  intros [Hall Hlen Hlow Hsel]. unfold record_error.
  assert (Hnew : ∀ j e', (errors ++ [sse]) !! j = Some e' →
            errors !! j = Some e' ∨ (j = length errors ∧ e' = sse)).
  { intros j e' Hj. apply lookup_app_Some in Hj as [?|[? Hj]]; [ by left | right ].
    apply list_lookup_singleton_Some in Hj as [? ->]. split; [ lia | done ]. }
  destruct (err_lt sse (lowest_sse st)) eqn:Hlt; split; simpl.
  - by rewrite Hall.
  - rewrite !length_app. simpl. lia.
  - intros j e' [Hj|[_ ->]]%Hnew; [ | apply err_lt_irrefl ].
    eapply err_lt_lower; eauto.
  - right. exists (length cp_tensors), cp_tensor. split_and!; try done.
    + by rewrite lookup_app_r, Nat.sub_diag.
    + by rewrite <- Hlen, lookup_app_r, Nat.sub_diag.
    + destruct Hsel as [(_ & _ & Hinf)|(k & m & _ & _ & _ & _ & Hinf & _)].
      * by rewrite <- Hinf.
      * eapply err_lt_trans; eauto.
    + intros j e' Hj [He|[-> _]]%Hnew; [ | lia ].
      eapply err_le_lower; eauto.
  - by rewrite Hall.
  - rewrite !length_app. simpl. lia.
  - intros j e' [Hj|[_ ->]]%Hnew; eauto.
  - destruct Hsel as [?|(k & m & ? & ? & Hk & Hek & ? & Hbefore)]; [ by left | right ].
    exists k, m. split_and!; try done.
    + by apply lookup_app_l_Some.
    + by apply lookup_app_l_Some.
    + intros j e' Hj [He|[-> _]]%Hnew; [ eauto | ].
      apply lookup_lt_Some in Hek. lia.
Qed.

(** The loop is the calls of the error function, each followed by
    [record_error]: it raises when a call does, and otherwise ends in a
    state that satisfies the invariant for the errors returned. *)
Lemma loop_spec (error_function : CPTensor → Dataset → M error_value) X cp_tensors w :
  match error_calls error_function X cp_tensors w with
  | Returns errors w' =>
      ∃ st, for_enumerate (loop_body error_function X) 0 cp_tensors
              (Locals None None np_inf []) w = Returns st w' ∧
            selection_invariant cp_tensors errors st
  | Raises e w' =>
      for_enumerate (loop_body error_function X) 0 cp_tensors
        (Locals None None np_inf []) w = Raises e w'
  end.
Proof.
  unfold error_calls.
  induction cp_tensors as [|cp_tensor cp_tensors IH] using rev_ind; simpl.
  - eexists. split; [ done | apply selection_invariant_init ].
  - rewrite list_comprehension_snoc, for_enumerate_snoc.
    unfold mbind, eval_bind in *.
    destruct (list_comprehension _ cp_tensors w) as [errors w0|e w0].
    + destruct IH as (st & -> & Hinv). unfold loop_body, mbind, eval_bind.
      destruct (error_function cp_tensor X w0) as [sse w1|]; [ | done ].
      eexists. split; [ done | ]. by apply record_error_invariant.
    + by rewrite IH.
Qed.

Variable relative_sse : CPTensor → Dataset → M error_value.

Lemma get_model_with_lowest_error_spec cp_tensors X error_function w :
  match error_calls (default relative_sse error_function) X cp_tensors w with
  | Returns errors w' =>
      ∃ st, get_model_with_lowest_error relative_sse cp_tensors X error_function w
              = Returns (selected_cp_tensor st, selected_index st, errors) w' ∧
            selection_invariant cp_tensors errors st
  | Raises e w' =>
      get_model_with_lowest_error relative_sse cp_tensors X error_function w
        = Raises e w'
  end.
Proof.
  unfold get_model_with_lowest_error. cbv zeta. unfold mbind, eval_bind.
  pose proof (loop_spec (default relative_sse error_function) X cp_tensors w) as H.
  destruct (error_calls _ X cp_tensors w) as [errors w'|e w'].
  - destruct H as (st & -> & Hinv). exists st. split; [ | done ].
    by rewrite (inv_all_sse _ _ _ Hinv).
  - by rewrite H.
Qed.
End Selection.

(** ** [sorted] *)

Section SortedFacts.
Context {Exn A : Type} (lt : A → A → Exn + bool).
Implicit Types (x y : A) (l racc : list A).

Lemma insert_from_right_perm x racc r :
  insert_from_right lt x racc = inr r → r ≡ₚ x :: racc.
Proof.
  revert r. induction racc as [|y racc IH]; intros r; simpl.
  - by intros [= <-].
  - destruct (lt x y) as [|[]]; simpl; [ done | | by intros [= <-] ].
    destruct (insert_from_right lt x racc) as [|r']; simpl; [ done | ].
    intros [= <-]. rewrite (IH r' eq_refl). apply Permutation_swap.
Qed.

Lemma sort_onto_perm racc l r :
  sort_onto lt racc l = inr r → r ≡ₚ racc ++ l.
Proof.
  revert racc. induction l as [|x l IH]; intros racc; simpl.
  - intros [= <-]. by rewrite app_nil_r.
  - destruct (insert_from_right lt x racc) as [|racc'] eqn:Hins; simpl; [ done | ].
    intros ->%IH. rewrite (insert_from_right_perm _ _ _ Hins).
    simpl. apply Permutation_middle.
Qed.

Lemma sorted_perm l s : sorted lt l = inr s → s ≡ₚ l.
Proof.
  unfold sorted. destruct (sort_onto lt [] l) as [|racc] eqn:Hsort; simpl; [ done | ].
  intros [= <-]. rewrite reverse_Permutation. by apply sort_onto_perm in Hsort.
Qed.

(** The sort returns when every comparison of a later item with an
    earlier one does. *)
Lemma insert_from_right_returns x racc :
  Forall (λ y, returns (lt x y)) racc → returns (insert_from_right lt x racc).
Proof.
  induction 1 as [|y racc [b Hb] _ [r Hr]]; simpl; [ by eexists | ].
  rewrite Hb, Hr. simpl. destruct b; by eexists.
Qed.

Lemma sort_onto_returns racc l :
  Forall (λ x, Forall (λ y, returns (lt x y)) racc) l →
  ForallOrdPairs (λ x x', returns (lt x' x)) l →
  returns (sort_onto lt racc l).
Proof.
  revert racc. induction l as [|x l IH]; intros racc Hracc Hl; simpl; [ by eexists | ].
  apply Forall_cons in Hracc as [Hx Hracc]. inversion_clear Hl as [|? ? Hxl Hl'].
  destruct (insert_from_right_returns x racc Hx) as [racc' Hins]. rewrite Hins. simpl.
  apply IH; [ | done ].
  rewrite Forall_forall in Hracc, Hxl. apply Forall_forall. intros x' Hx'.
  rewrite (insert_from_right_perm _ _ _ Hins). constructor; eauto.
Qed.

Lemma sorted_returns l :
  ForallOrdPairs (λ x x', returns (lt x' x)) l → returns (sorted lt l).
Proof.
  intros Hl. unfold sorted.
  destruct (sort_onto_returns [] l) as [racc ->]; [ | done | by eexists ].
  apply Forall_forall. intros. constructor.
Qed.

(** Neighbours in the result were compared with each other. *)
Lemma insert_from_right_hd x y racc r :
  insert_from_right lt x racc = inr r →
  HdRel (flip (placed_by lt)) y racc → placed_by lt x y →
  HdRel (flip (placed_by lt)) y r.
Proof.
  destruct racc as [|z racc]; simpl.
  - intros [= <-] _ ?. by constructor.
  - destruct (lt x z) as [|[]]; simpl; [ done | | ].
    + destruct (insert_from_right lt x racc); simpl; [ done | ].
      intros [= <-] Hz _. inversion_clear Hz. by constructor.
    + intros [= <-] _ ?. by constructor.
Qed.

Lemma insert_from_right_placed x racc r :
  Sorted (flip (placed_by lt)) racc →
  insert_from_right lt x racc = inr r →
  Sorted (flip (placed_by lt)) r.
Proof.
  intros Hracc. revert r. induction Hracc as [|y racc Hracc IH Hy]; intros r; simpl.
  - intros [= <-]. by repeat constructor.
  - destruct (lt x y) as [|[]] eqn:Hxy; simpl; [ done | | ].
    + destruct (insert_from_right lt x racc) as [|r'] eqn:Hins; simpl; [ done | ].
      intros [= <-]. constructor; [ by apply IH | ].
      eapply insert_from_right_hd; eauto. by right.
    + intros [= <-]. constructor; [ by constructor | ].
      constructor. by left.
Qed.

Lemma sort_onto_placed racc l r :
  Sorted (flip (placed_by lt)) racc →
  sort_onto lt racc l = inr r →
  Sorted (flip (placed_by lt)) r.
Proof.
  revert racc. induction l as [|x l IH]; intros racc Hracc; simpl.
  - by intros [= <-].
  - destruct (insert_from_right lt x racc) as [|racc'] eqn:Hins; simpl; [ done | ].
    apply IH. by eapply insert_from_right_placed.
Qed.

Lemma sorted_placed l s : sorted lt l = inr s → Sorted (placed_by lt) s.
Proof.
  unfold sorted. destruct (sort_onto lt [] l) as [|racc] eqn:Hsort; simpl; [ done | ].
  intros [= <-]. apply (Sorted_reverse (flip (placed_by lt))).
  eapply sort_onto_placed; [ | done ]. constructor.
Qed.
End SortedFacts.

(** ** Lists read by position *)

Section Positions.
Context {A : Type} (R : relation A).

Lemma ForallOrdPairs_lookup (l : list A) :
  (∀ i j x y, i < j → l !! i = Some x → l !! j = Some y → R x y) →
  ForallOrdPairs R l.
Proof.
  induction l as [|a l IH]; intros H; constructor.
  - apply Forall_lookup. intros j y Hj. apply (H 0 (S j)); [ lia | done | done ].
  - apply IH. intros i j x y ? Hi Hj. apply (H (S i) (S j)); [ lia | done | done ].
Qed.

Lemma StronglySorted_lookup (l : list A) i j x y :
  StronglySorted R l → i < j → l !! i = Some x → l !! j = Some y → R x y.
Proof.
  intros Hl. revert i j. induction Hl as [|a l Hl IH Ha]; intros i j Hij Hi Hj.
  - done.
  - destruct j as [|j]; [ lia | ]. destruct i as [|i]; simpl in *.
    + simplify_eq. rewrite Forall_lookup in Ha. eauto.
    + apply (IH i j); [ lia | done | done ].
Qed.


Lemma Sorted_impl_Forall (R' : relation A) (P : A → Prop) (l : list A) :
  (∀ x y, P x → P y → R x y → R' x y) →
  Forall P l → Sorted R l → Sorted R' l.
Proof.
  intros HR HP Hl. induction Hl as [|a l Hl IH Ha]; [ constructor | ].
  apply Forall_cons in HP as [Pa HP]. constructor; [ by apply IH | ].
  destruct Ha as [|b l' Hab]; constructor.
  apply Forall_cons in HP as [Pb _]. by apply HR.
Qed.
End Positions.

Section Zip.
Context {A B C : Type}.

Lemma zip_fmap_both (g : A → B) (h : A → C) (l : list A) :
  zip (g <$> l) (h <$> l) = (λ x, (g x, h x)) <$> l.
Proof. induction l; simpl; [ done | by f_equal ]. Qed.

Lemma zip_fmap_swap (h : A → C) (l : list A) (k : list B) :
  zip k (h <$> l) = (λ p, (p.2, h p.1)) <$> zip l k.
Proof.
  revert k. induction l as [|a l IH]; intros [|b k]; simpl; [ done.. | ].
  by rewrite IH.
Qed.

Lemma Forall2_zip_flip (P : A → B → Prop) (l : list A) (k : list B) :
  Forall2 P l k → Forall (λ p, P p.2 p.1) (zip k l).
Proof. induction 1; simpl; by constructor. Qed.

Lemma Forall2_fmap_both (P : B → C → Prop) (g : A → B) (h : A → C) (l : list A) :
  Forall (λ x, P (g x) (h x)) l → Forall2 P (g <$> l) (h <$> l).
Proof. induction 1; simpl; by constructor. Qed.
End Zip.

(** ** [sort_models_by_error] *)

Section Ranking.
Context {CPTensor Dataset World Exn : Type}.
Local Abbreviation M := (eval World Exn).
Implicit Types (cp_tensors : list CPTensor) (errors : list error_value).
Implicit Types (X : Dataset) (p q : error_value * CPTensor).

Variable relative_sse : CPTensor → Dataset → M error_value.
Variable cp_tensor_eq cp_tensor_lt : CPTensor → CPTensor → Exn + bool.

Local Abbreviation compare := (tuple_lt cp_tensor_eq cp_tensor_lt).

Lemma sort_models_by_error_unfold cp_tensors X error_function w :
  sort_models_by_error relative_sse cp_tensor_eq cp_tensor_lt
    cp_tensors X error_function w =
  match get_model_with_lowest_error relative_sse cp_tensors X error_function w with
  | Returns r w' =>
      match sorted compare (zip r.2 cp_tensors) with
      | inr sorted_tensors =>
          Returns (sorted_tensors.*2,
                   (λ p, np_asarray_item p.1) <$> sorted_tensors) w'
      | inl e => Raises e w'
      end
  | Raises e w' => Raises e w'
  end.
Proof.
  unfold sort_models_by_error, mbind, eval_bind, fmap, eval_fmap.
  destruct (get_model_with_lowest_error _ _ _ _ w) as [r w'|]; [ | done ].
  unfold lift_result. by destruct (sorted _ _).
Qed.

(** The same, from the calls of the error function. *)
Lemma sort_models_by_error_spec cp_tensors X error_function w :
  sort_models_by_error relative_sse cp_tensor_eq cp_tensor_lt
    cp_tensors X error_function w =
  match error_calls (default relative_sse error_function) X cp_tensors w with
  | Returns errors w' =>
      match sorted compare (zip errors cp_tensors) with
      | inr sorted_tensors =>
          Returns (sorted_tensors.*2,
                   (λ p, np_asarray_item p.1) <$> sorted_tensors) w'
      | inl e => Raises e w'
      end
  | Raises e w' => Raises e w'
  end.
Proof.
  rewrite sort_models_by_error_unfold.
  pose proof (get_model_with_lowest_error_spec relative_sse
                cp_tensors X error_function w) as H.
  destruct (error_calls _ X cp_tensors w) as [errors w'|e w'].
  - by destruct H as (st & -> & _).
  - by rewrite H.
Qed.

(** The comparison of tuples returns at once on different errors. *)
Lemma tuple_lt_differ p q :
  err_eq p.1 q.1 = false → compare p q = inr (err_lt p.1 q.1).
Proof. unfold tuple_lt. by intros ->. Qed.


(** Tuples placed by a comparison have their errors in order, NaN apart. *)
Lemma placed_by_tuple_lt_le p q :
  err_is_nan p.1 = false → err_is_nan q.1 = false →
  placed_by compare p q → err_le p.1 q.1 = true.
Proof.
  intros Hp Hq [Hqp|Hpq].
  - destruct (err_eq q.1 p.1) eqn:Heq; [ by apply err_eq_le in Heq as [_ ?] | ].
    rewrite tuple_lt_differ in Hqp by done. simplify_eq.
    by apply err_le_total.
  - destruct (err_eq p.1 q.1) eqn:Heq; [ by apply err_eq_le in Heq as [? _] | ].
    rewrite tuple_lt_differ in Hpq by done. simplify_eq.
    by apply err_lt_le.
Qed.

Lemma sorted_errors_non_decreasing errors cp_tensors sorted_tensors :
  Forall (λ e, err_is_nan e = false) errors →
  sorted compare (zip errors cp_tensors) = inr sorted_tensors →
  non_decreasing ((λ p, np_asarray_item p.1) <$> sorted_tensors).
Proof.
  intros Hnan Hsorted.
  assert (Hs : Forall (λ p, err_is_nan p.1 = false) sorted_tensors).
  { rewrite (sorted_perm _ _ _ Hsorted). apply Forall_forall. intros [e m] Hin.
    rewrite Forall_forall in Hnan. apply Hnan. by eapply elem_of_zip_l. }
  apply sorted_placed in Hsorted.
  assert (Hle : StronglySorted (λ p q, err_le p.1 q.1 = true) sorted_tensors).
  { apply Sorted_StronglySorted.
    - intros p q r. apply err_le_trans.
    - eapply Sorted_impl_Forall; [ | exact Hs | exact Hsorted ].
      intros p q. apply placed_by_tuple_lt_le. }
  intros i j a b Hij Hi Hj.
  apply list_lookup_fmap_Some in Hi as (p & -> & Hi).
  apply list_lookup_fmap_Some in Hj as (q & -> & Hj).
  rewrite err_le_item. by eapply (StronglySorted_lookup _ _ i j p q Hle).
Qed.


(** What a result of [sort_models_by_error] is made of. *)
Lemma sort_models_by_error_returns_inv cp_tensors X error_function w ms es w' :
  sort_models_by_error relative_sse cp_tensor_eq cp_tensor_lt
    cp_tensors X error_function w = Returns (ms, es) w' →
  ∃ errors sorted_tensors,
    error_calls (default relative_sse error_function) X cp_tensors w
      = Returns errors w' ∧
    length errors = length cp_tensors ∧
    sorted compare (zip errors cp_tensors) = inr sorted_tensors ∧
    ms = sorted_tensors.*2 ∧
    es = (λ p, np_asarray_item p.1) <$> sorted_tensors.
Proof.
  rewrite sort_models_by_error_spec.
  destruct (error_calls _ X cp_tensors w) as [errors w0|] eqn:Hcalls; [ | done ].
  destruct (sorted compare (zip errors cp_tensors)) as [|s] eqn:Hs; [ done | ].
  intros [= <- <- <-]. exists errors, s. split_and!; try done.
  by eapply list_comprehension_length.
Qed.

Lemma sorted_tensors_models errors cp_tensors sorted_tensors :
  length errors = length cp_tensors →
  sorted compare (zip errors cp_tensors) = inr sorted_tensors →
  sorted_tensors.*2 ≡ₚ cp_tensors.
Proof.
  intros Hlen ->%sorted_perm. rewrite snd_zip; [ done | lia ].
Qed.


Lemma sorted_tensors_calls (error_function : CPTensor → Dataset → M error_value)
    X errors cp_tensors w w' sorted_tensors :
  error_calls error_function X cp_tensors w = Returns errors w' →
  sorted compare (zip errors cp_tensors) = inr sorted_tensors →
  Forall2
    (λ m e, ∃ e0 w1 w2,
       error_function m X w1 = Returns e0 w2 ∧ e = np_asarray_item e0)
    (sorted_tensors.*2) ((λ p, np_asarray_item p.1) <$> sorted_tensors).
Proof.
  intros Hcalls%list_comprehension_calls Hs%sorted_perm.
  apply Forall2_fmap_both. rewrite Hs.
  apply Forall2_zip_flip in Hcalls. eapply Forall_impl; [ exact Hcalls | ].
  intros [e m] (w1 & w2 & ?). simpl in *. eauto.
Qed.
End Ranking.

(** ** The first minimum *)

Section FirstMinimum.
Implicit Types (errors : list error_value).

Lemma first_minimum_unique errors i j :
  first_minimum errors i → first_minimum errors j → i = j.
Proof.
  assert (Hlt : ∀ i j, first_minimum errors i → first_minimum errors j → ¬ i < j).
  { clear. intros i j (ei & Hi & Hinf_i & Hmin_i & _) (ej & Hj & Hinf_j & _ & Hfirst_j) Hij.
    pose proof (Hfirst_j i ei Hij Hi) as Hle. pose proof (Hmin_i j ej Hj) as Hnlt.
    apply err_lt_not_nan in Hinf_i as [? _]. apply err_lt_not_nan in Hinf_j as [? _].
    rewrite err_le_total in Hle; done. }
  intros Hi Hj. pose proof (Hlt i j Hi Hj). pose proof (Hlt j i Hj Hi). lia.
Qed.

Lemma first_minimum_least errors i :
  Forall (λ e, err_is_nan e = false) errors →
  first_minimum errors i → first_least errors i.
Proof.
  rewrite Forall_lookup. intros Hnan (e & Hi & Hinf & Hmin & Hfirst).
  pose proof (Hnan i e Hi) as He.
  exists e. split_and!; [ done | | ].
  - intros j e' Hj. apply err_le_total; eauto.
  - intros j e' Hij Hj. destruct (err_lt e e') eqn:Hlt; [ done | ].
    rewrite <- (Hfirst j e' Hij Hj). apply err_le_total; eauto.
Qed.

Lemma selection_invariant_first_minimum {CPTensor} (cp_tensors : list CPTensor)
    errors st k :
  selection_invariant cp_tensors errors st → selected_index st = Some k →
  first_minimum errors k.
Proof.
  intros [_ _ Hlow [(_ & ? & _)|(k' & m & ? & _ & _ & Hk & Hinf & Hfirst)]] ?;
    simplify_eq.
  exists (lowest_sse st). split_and!; done.
Qed.
End FirstMinimum.

(** * The properties *)

(** C3.  [similarity_evaluation] calls the metric once for each comparison
    model, in order, on the primary model, that model and the keyword
    options, and returns the values of the calls in that order.  For a metric
    that is a function this is read from the log of calls; for any metric,
    each value returned is what a call on the model in its place returned,
    and whatever no call of the metric changes is left unchanged. *)
Theorem similarity_evaluation_one_call_each
    {CPTensor Similarity KwValue : Type}
    (cp_tensor : CPTensor) (comparison_cp_tensors : list CPTensor)
    (kwargs : gmap string KwValue) :
  (∀ Exn factor_match_score
     (sim : CPTensor → CPTensor → gmap string KwValue → Similarity) log,
     similarity_evaluation (Exn := Exn) factor_match_score
       cp_tensor comparison_cp_tensors (Some (logged3 sim)) kwargs log
     = Returns ((λ c, sim cp_tensor c kwargs) <$> comparison_cp_tensors)
               (log ++ ((λ c, (cp_tensor, c, kwargs)) <$> comparison_cp_tensors))) ∧
  (∀ World Exn factor_match_score similarity_metric (w : World) similarity w',
     similarity_evaluation (Exn := Exn) (Similarity := Similarity) factor_match_score
       cp_tensor comparison_cp_tensors similarity_metric kwargs w
     = Returns similarity w' →
     length similarity = length comparison_cp_tensors ∧
     Forall2
       (λ c s, ∃ w1 w2,
          default factor_match_score similarity_metric cp_tensor c kwargs w1
          = Returns s w2)
       comparison_cp_tensors similarity) ∧
  (∀ World Exn T (obs : World → T) factor_match_score similarity_metric (w : World),
     (∀ a b k w0,
        obs (final_world
               (default factor_match_score similarity_metric a b k w0
                : outcome World Exn Similarity)) = obs w0) →
     obs (final_world
            (similarity_evaluation factor_match_score
               cp_tensor comparison_cp_tensors similarity_metric kwargs w))
     = obs w).
Proof.
  split_and!.
  - intros. unfold similarity_evaluation. simpl.
    apply (list_comprehension_logged3 sim cp_tensor kwargs).
  - intros World Exn fms metric w sims w' Hrun. unfold similarity_evaluation in Hrun.
    split.
    + by eapply list_comprehension_length.
    + by eapply list_comprehension_calls.
  - intros World Exn T obs fms metric w Hobs. unfold similarity_evaluation.
    apply list_comprehension_frame. intros. apply Hobs.
Qed.

(** C4.  On an empty list of models [get_model_with_lowest_error] returns
    [(None, None, [])] and leaves the interpreter state as it found it,
    whatever the dataset and the error function: no call is made. *)
Theorem get_model_with_lowest_error_empty
    {CPTensor Dataset World Exn : Type}
    (relative_sse : CPTensor → Dataset → eval World Exn error_value)
    (X : Dataset)
    (error_function : option (CPTensor → Dataset → eval World Exn error_value))
    (w : World) :
  get_model_with_lowest_error relative_sse [] X error_function w
  = Returns (None, None, []) w.
Proof. reflexivity. Qed.

(** C5.  The third component of the result of [get_model_with_lowest_error]
    is the list of the values [error_function(cp_tensor, X)], one for each
    model, computed in the order of the list: it ends in the same state, or
    with the same exception, as those calls in that order; it has the
    length of the list of models, and each error is what a call on the model
    in its place returned.  For an error function that is a function, the
    errors are its values and the log shows one call for each model. *)
Theorem get_model_with_lowest_error_errors
    {CPTensor Dataset World Exn : Type}
    (relative_sse : CPTensor → Dataset → eval World Exn error_value)
    (cp_tensors : list CPTensor) (X : Dataset)
    (error_function : option (CPTensor → Dataset → eval World Exn error_value))
    (w : World) :
  ((λ r, r.2) <$> get_model_with_lowest_error relative_sse cp_tensors X error_function) w
    = error_calls (default relative_sse error_function) X cp_tensors w ∧
  (∀ r w',
     get_model_with_lowest_error relative_sse cp_tensors X error_function w
       = Returns r w' →
     length r.2 = length cp_tensors ∧
     Forall2
       (λ m e, ∃ w1 w2, default relative_sse error_function m X w1 = Returns e w2)
       cp_tensors r.2) ∧
  (∀ Exn' relative_sse' (f : CPTensor → Dataset → error_value) log,
     ∃ selected index,
       get_model_with_lowest_error (Exn := Exn') relative_sse' cp_tensors X
         (Some (logged2 f)) log
       = Returns (selected, index, (λ m, f m X) <$> cp_tensors)
                 (log ++ ((λ m, (m, X)) <$> cp_tensors))).
Proof.
  split_and!.
  - pose proof (get_model_with_lowest_error_spec relative_sse
                  cp_tensors X error_function w) as H.
    unfold fmap, eval_fmap.
    destruct (error_calls _ X cp_tensors w) as [errors w'|e w'].
    + by destruct H as (st & -> & _).
    + by rewrite H.
  - intros r w' Hrun.
    pose proof (get_model_with_lowest_error_spec relative_sse
                  cp_tensors X error_function w) as H.
    destruct (error_calls _ X cp_tensors w) as [errors w0|e w0] eqn:Hcalls.
    + destruct H as (st & H & _). rewrite H in Hrun. simplify_eq. simpl. split.
      * by eapply list_comprehension_length.
      * by eapply list_comprehension_calls.
    + congruence.
  - intros Exn' relative_sse' f log.
    pose proof (get_model_with_lowest_error_spec relative_sse'
                  cp_tensors X (Some (logged2 f)) log) as H.
    unfold error_calls in H. simpl in H.
    rewrite (list_comprehension_logged2 f X cp_tensors log) in H.
    destruct H as (st & -> & _). by eexists _, _.
Qed.

(** C1 (as amended).  When the calls of the error function return and one
    of the errors is below [np.inf], [get_model_with_lowest_error] returns
    the model at the first minimum of the errors, its index and the errors:
    the error there is below [np.inf], no error is below it, and no earlier
    error is below or equal to it.  When moreover no error is NaN, that
    error is at most every error and below every earlier one. *)
Theorem get_model_with_lowest_error_first_minimum
    {CPTensor Dataset World Exn : Type}
    (relative_sse : CPTensor → Dataset → eval World Exn error_value)
    (cp_tensors : list CPTensor) (X : Dataset)
    (error_function : option (CPTensor → Dataset → eval World Exn error_value))
    (w : World) (errors : list error_value) (w' : World) :
  error_calls (default relative_sse error_function) X cp_tensors w
    = Returns errors w' →
  (∃ e, e ∈ errors ∧ err_lt e np_inf = true) →
  ∃ i m,
    get_model_with_lowest_error relative_sse cp_tensors X error_function w
      = Returns (Some m, Some i, errors) w' ∧
    cp_tensors !! i = Some m ∧
    first_minimum errors i ∧
    (Forall (λ e, err_is_nan e = false) errors → first_least errors i).
Proof.
  intros Hcalls (e & [j Hj]%list_elem_of_lookup_1 & Hinf).
  pose proof (get_model_with_lowest_error_spec relative_sse
                cp_tensors X error_function w) as H.
  rewrite Hcalls in H. destruct H as (st & -> & Hinv).
  pose proof Hinv as [_ _ Hlow [(_ & _ & Hnone)|(k & m & Hk & Hm & ? & ? & ? & ?)]].
  - rewrite Hnone in Hlow. by rewrite (Hlow j e Hj) in Hinf.
  - exists k, m. rewrite Hk, Hm.
    assert (first_minimum errors k) by by eapply selection_invariant_first_minimum.
    split_and!; try done. intros. by apply first_minimum_least.
Qed.

(** C9.  When the calls of the error function return and none of the errors
    is below [np.inf], [get_model_with_lowest_error] returns [None] for the
    model and for the index, with all the errors, also on a list of models
    that is not empty. *)
Theorem get_model_with_lowest_error_none
    {CPTensor Dataset World Exn : Type}
    (relative_sse : CPTensor → Dataset → eval World Exn error_value)
    (cp_tensors : list CPTensor) (X : Dataset)
    (error_function : option (CPTensor → Dataset → eval World Exn error_value))
    (w : World) (errors : list error_value) (w' : World) :
  error_calls (default relative_sse error_function) X cp_tensors w
    = Returns errors w' →
  Forall (λ e, err_lt e np_inf = false) errors →
  get_model_with_lowest_error relative_sse cp_tensors X error_function w
    = Returns (None, None, errors) w'.
Proof.
  intros Hcalls Hinf.
  pose proof (get_model_with_lowest_error_spec relative_sse
                cp_tensors X error_function w) as H.
  rewrite Hcalls in H. destruct H as (st & -> & Hinv).
  destruct Hinv as [_ _ _ [(-> & -> & _)|(k & m & _ & _ & _ & Hk & Hlt & _)]]; [ done | ].
  rewrite Forall_lookup in Hinf. by rewrite (Hinf k _ Hk) in Hlt.
Qed.


(** C6.  [sort_models_by_error] sorts the errors that
    [get_model_with_lowest_error] returns on the same models, dataset and
    error function: it raises when that call raises, and otherwise goes on,
    from the state that call ends in, with [sorted] on those errors zipped
    with the models.  Those errors are the ones the calls of the error
    function return, and the errors it returns are their plain floats in
    some order. *)
Theorem sort_models_by_error_same_errors
    {CPTensor Dataset World Exn : Type}
    (relative_sse : CPTensor → Dataset → eval World Exn error_value)
    (cp_tensor_eq cp_tensor_lt : CPTensor → CPTensor → Exn + bool)
    (cp_tensors : list CPTensor) (X : Dataset)
    (error_function : option (CPTensor → Dataset → eval World Exn error_value))
    (w : World) :
  match get_model_with_lowest_error relative_sse cp_tensors X error_function w with
  | Returns r w' =>
      sort_models_by_error relative_sse cp_tensor_eq cp_tensor_lt
        cp_tensors X error_function w
      = (sorted_tensors ←
           lift_result (sorted (tuple_lt cp_tensor_eq cp_tensor_lt)
                          (zip r.2 cp_tensors));
         mret (sorted_tensors.*2,
               (λ p, np_asarray_item p.1) <$> sorted_tensors)) w' ∧
      error_calls (default relative_sse error_function) X cp_tensors w
      = Returns r.2 w' ∧
      (∀ sorted_models sorted_errors w'',
         sort_models_by_error relative_sse cp_tensor_eq cp_tensor_lt
           cp_tensors X error_function w
         = Returns (sorted_models, sorted_errors) w'' →
         w'' = w' ∧ sorted_errors ≡ₚ np_asarray_item <$> r.2)
  | Raises e w' =>
      sort_models_by_error relative_sse cp_tensor_eq cp_tensor_lt
        cp_tensors X error_function w = Raises e w'
  end.
Proof.
  pose proof (get_model_with_lowest_error_spec relative_sse
                cp_tensors X error_function w) as Hget.
  rewrite sort_models_by_error_unfold.
  destruct (error_calls _ X cp_tensors w) as [errors w0|e w0] eqn:Hcalls.
  - destruct Hget as (st & -> & _). simpl. split_and!; [ | done | ].
    + unfold mbind, eval_bind, lift_result. by destruct (sorted _ _).
    + intros ms es w''.
      destruct (sorted _ (zip errors cp_tensors)) as [|s] eqn:Hs; [ done | ].
      intros [= <- <- <-]. split; [ done | ].
      apply sorted_perm in Hs. rewrite Hs.
      assert (length errors = length cp_tensors)
        by by eapply list_comprehension_length.
      rewrite <- (fst_zip errors cp_tensors) at 2 by lia.
      by rewrite <- list_fmap_compose.
  - by rewrite Hget.
Qed.

(** C8 (as amended).  Every error that [sort_models_by_error] returns is a
    plain Python scalar, the item of what a call of the error function
    returned for the model in its place, and holds the same number: a plain
    float when that call returned a float, boxed or not, and a plain [int]
    when it returned an integer, boxed or not.  So the errors returned are
    all plain floats when the errors computed are all floats.  The models
    returned are the models given, in some order. *)
Theorem sort_models_by_error_plain_scalars
    {CPTensor Dataset World Exn : Type}
    (relative_sse : CPTensor → Dataset → eval World Exn error_value)
    (cp_tensor_eq cp_tensor_lt : CPTensor → CPTensor → Exn + bool)
    (cp_tensors : list CPTensor) (X : Dataset)
    (error_function : option (CPTensor → Dataset → eval World Exn error_value))
    (w : World) (sorted_models : list CPTensor)
    (sorted_errors : list error_value) (w' : World) :
  sort_models_by_error relative_sse cp_tensor_eq cp_tensor_lt
    cp_tensors X error_function w
    = Returns (sorted_models, sorted_errors) w' →
  ∃ errors,
    error_calls (default relative_sse error_function) X cp_tensors w
      = Returns errors w' ∧
    Forall2
      (λ m e, ∃ e0 w1 w2,
         default relative_sse error_function m X w1 = Returns e0 w2 ∧
         e = np_asarray_item e0 ∧ unbox e = unbox e0 ∧
         (is_float_valued e0 → is_plain_float e) ∧
         (¬ is_float_valued e0 → is_plain_int e))
      sorted_models sorted_errors ∧
    (Forall is_float_valued errors → Forall is_plain_float sorted_errors) ∧
    zip sorted_models (unbox <$> sorted_errors)
      ≡ₚ zip cp_tensors (unbox <$> errors) ∧
    sorted_models ≡ₚ cp_tensors.
Proof.
  intros (errors & s & Hcalls & Hlen & Hs & -> & ->)%sort_models_by_error_returns_inv.
  exists errors. split_and!.
  - done.
  - eapply Forall2_impl; [ by eapply sorted_tensors_calls | ].
    intros m e (e0 & w1 & w2 & Hcall & ->). exists e0, w1, w2.
    split_and!; [ done | done | apply unbox_item | | ].
    + destruct e0; simpl; [ by eexists.. | done | done ].
    + destruct e0; simpl; [ by intros [] | by intros [] | by eexists.. ].
  - intros Hfloat. apply Forall_fmap, Forall_forall. intros [e m] Hin. simpl.
    rewrite (sorted_perm _ _ _ Hs) in Hin. apply elem_of_zip_l in Hin.
    rewrite Forall_forall in Hfloat. specialize (Hfloat e Hin).
    destruct e; simpl in *; [ by eexists.. | done | done ].
  - rewrite <- list_fmap_compose, zip_fmap_both, zip_fmap_swap.
    rewrite (sorted_perm _ _ _ Hs).
    match goal with |- ?a ≡ₚ ?b => assert (a = b) as ->; [ | done ] end.
    apply list_fmap_ext. intros ? [e m] _. simpl. by rewrite unbox_item.
  - by eapply sorted_tensors_models.
Qed.

(** C10.  When [sort_models_by_error] returns, the models it returns are a
    permutation of the models given. *)
Theorem sort_models_by_error_permutation
    {CPTensor Dataset World Exn : Type}
    (relative_sse : CPTensor → Dataset → eval World Exn error_value)
    (cp_tensor_eq cp_tensor_lt : CPTensor → CPTensor → Exn + bool)
    (cp_tensors : list CPTensor) (X : Dataset)
    (error_function : option (CPTensor → Dataset → eval World Exn error_value))
    (w : World) (sorted_models : list CPTensor)
    (sorted_errors : list error_value) (w' : World) :
  sort_models_by_error relative_sse cp_tensor_eq cp_tensor_lt
    cp_tensors X error_function w
    = Returns (sorted_models, sorted_errors) w' →
  sorted_models ≡ₚ cp_tensors.
Proof.
  intros (errors & s & _ & Hlen & Hs & -> & _)%sort_models_by_error_returns_inv.
  by eapply sorted_tensors_models.
Qed.

(** * The properties on sample inputs *)

(** P3: errors [5, 2, 8, 2]. *)
Example lowest_error_5_2_8_2 :
  Sample.run_lowest Sample.errors_5_2_8_2 [0; 1; 2; 3]
  = Returns (Some 1, Some 1, Sample.errors_5_2_8_2) (Sample.calls 4).
Proof. vm_compute. reflexivity. Qed.

(** P5 and P7: boxed errors [30, 10, 40, 20] on models that cannot be
    compared. *)
Example sort_30_10_40_20 :
  Sample.run_sort Sample.array_eq Sample.array_lt Sample.errors_30_10_40_20 [0; 1; 2; 3]
  = Returns ([1; 3; 0; 2], Sample.errors_10_20_30_40) (Sample.calls 4).
Proof. vm_compute. reflexivity. Qed.

Example sort_empty :
  Sample.run_sort Sample.array_eq Sample.array_lt [] [] = Returns ([], []) [].
Proof. reflexivity. Qed.

(** Two different models with the same error: the sort raises what the
    comparison of the models raises; one model twice is equal to itself. *)
Example sort_tie_raises :
  Sample.run_sort Sample.array_eq Sample.array_lt Sample.errors_tie [0; 1]
  = Raises "ValueError"%string (Sample.calls 2).
Proof. vm_compute. reflexivity. Qed.

Example sort_tie_same_model :
  Sample.run_sort Sample.array_eq Sample.array_lt Sample.errors_tie [0; 0]
  = Returns ([0; 0], Sample.errors_tie) [(0, 0); (0, 0)].
Proof. vm_compute. reflexivity. Qed.

(** The sample errors are binary64 numbers. *)
Example sample_errors_valid :
  Forall (λ e, valid_binary Float.prec Float.emax (unbox e) = true)
    (Sample.errors_5_2_8_2 ++ Sample.errors_30_10_40_20 ++ Sample.errors_2_nan_1
     ++ Sample.errors_inf_nan ++ Sample.errors_tie).
Proof. repeat constructor. Qed.

Lemma get_model_with_lowest_error_first_minimum_witness :
  ∃ i m,
    Sample.run_lowest Sample.errors_5_2_8_2 [0; 1; 2; 3]
      = Returns (Some m, Some i, Sample.errors_5_2_8_2) (Sample.calls 4) ∧
    [0; 1; 2; 3] !! i = Some m ∧
    first_minimum Sample.errors_5_2_8_2 i ∧
    (Forall (λ e, err_is_nan e = false) Sample.errors_5_2_8_2 →
     first_least Sample.errors_5_2_8_2 i).
Proof.
  apply (get_model_with_lowest_error_first_minimum
           Sample.no_error_function [0; 1; 2; 3] Sample.dataset
           (Some (logged2 (Sample.table_error Sample.errors_5_2_8_2))) []).
  - vm_compute. reflexivity.
  - exists (Sample.float 2). split; [ | vm_compute; reflexivity ].
    apply (list_elem_of_lookup_2 _ 1). reflexivity.
Defined.

(** C1 as stated fails: the least of the errors [inf] is at index 0, and
    the model there is not returned. *)
Lemma get_model_with_lowest_error_all_inf :
  first_least [np_inf] 0 ∧
  Sample.run_lowest [np_inf] [0] = Returns (None, None, [np_inf]) (Sample.calls 1).
Proof.
  split; [ | vm_compute; reflexivity ].
  exists np_inf. split_and!; [ done | | intros; lia ].
  intros [|[|j]] e' [=]. by subst.
Qed.

Lemma get_model_with_lowest_error_none_witness :
  Sample.run_lowest Sample.errors_inf_nan [0; 1]
  = Returns (None, None, Sample.errors_inf_nan) (Sample.calls 2).
Proof.
  apply (get_model_with_lowest_error_none
           Sample.no_error_function [0; 1] Sample.dataset
           (Some (logged2 (Sample.table_error Sample.errors_inf_nan))) []).
  - vm_compute. reflexivity.
  - repeat constructor.
Defined.



Lemma sort_models_by_error_plain_scalars_witness :
  Forall is_plain_float Sample.errors_10_20_30_40 ∧
  zip [1; 3; 0; 2] (unbox <$> Sample.errors_10_20_30_40)
    ≡ₚ zip [0; 1; 2; 3] (unbox <$> Sample.errors_30_10_40_20) ∧
  [1; 3; 0; 2] ≡ₚ [0; 1; 2; 3].
Proof.
  destruct (sort_models_by_error_plain_scalars
              Sample.no_error_function Sample.array_eq Sample.array_lt
              [0; 1; 2; 3] Sample.dataset
              (Some (logged2 (Sample.table_error Sample.errors_30_10_40_20))) []
              [1; 3; 0; 2] Sample.errors_10_20_30_40 (Sample.calls 4))
    as (errors & Hcalls & _ & Hplain & Hpairs & Hmodels).
  - vm_compute. reflexivity.
  - injection Hcalls as <-. split_and!; [ | assumption | assumption ].
    apply Hplain. repeat constructor.
Defined.

(** C8 as stated fails: errors that are boxed integers are returned as
    Python integers, not as floats. *)
Lemma sort_models_by_error_int_errors :
  Sample.run_sort Sample.array_eq Sample.array_lt
    IntSample.errors_30_10_40_20 [0; 1; 2; 3]
  = Returns ([1; 3; 0; 2], IntSample.errors_10_20_30_40) (Sample.calls 4) ∧
  Forall (λ e, is_plain_int e ∧ ¬ is_plain_float e) IntSample.errors_10_20_30_40.
Proof.
  split; [ vm_compute; reflexivity | ].
  repeat constructor; try (by eexists); by intros [f Hf].
Qed.

Lemma sort_models_by_error_permutation_witness :
  [1; 3; 0; 2] ≡ₚ [0; 1; 2; 3].
Proof.
  apply (sort_models_by_error_permutation
           Sample.no_error_function Sample.array_eq Sample.array_lt
           [0; 1; 2; 3] Sample.dataset
           (Some (logged2 (Sample.table_error Sample.errors_30_10_40_20))) []
           [1; 3; 0; 2] Sample.errors_10_20_30_40 (Sample.calls 4)).
  vm_compute. reflexivity.
Defined.

(** * Further properties *)

(** ** Helper facts *)

Lemma err_le_antisym (a b : error_value) :
  err_le a b = true → err_le b a = true → err_eq a b = true.
Proof.
  unfold err_le, err_eq. generalize (unbox a) (unbox b). clear a b. intros a b Hab Hba.
  rewrite FloatFacts.leb_ltb_eqb in Hab, Hba.
  apply orb_true_iff in Hab as [Hab|Hab]; [ | done ].
  apply orb_true_iff in Hba as [Hba|Hba]; [ | by apply FloatFacts.eqb_sym ].
  pose proof (FloatFacts.ltb_trans _ _ _ Hab Hba) as Haa.
  by rewrite FloatFacts.ltb_irrefl in Haa.
Qed.

Lemma err_eq_sym (a b : error_value) : err_eq a b = true → err_eq b a = true.
Proof. apply FloatFacts.eqb_sym. Qed.

Section MoreLoops.
Context {World Exn : Type}.

Lemma list_comprehension_app {A B} (f : A → eval World Exn B) xs1 xs2 w :
  list_comprehension f (xs1 ++ xs2) w =
  (ys1 ← list_comprehension f xs1; ys2 ← list_comprehension f xs2;
   mret (ys1 ++ ys2)) w.
Proof.
  revert w. induction xs1 as [|x xs1 IH]; intros w; simpl.
  - unfold mbind, eval_bind, mret, eval_ret. simpl.
    by destruct (list_comprehension f xs2 w).
  - unfold mbind, eval_bind in *. destruct (f x w) as [y w0|]; [ | done ].
    rewrite IH. destruct (list_comprehension f xs1 w0) as [ys1 w1|]; [ | done ].
    simpl. by destruct (list_comprehension f xs2 w1).
Qed.

(** A comprehension ends at the first call that raises. *)
Lemma list_comprehension_raises {A B} (f : A → eval World Exn B)
    pre x post w ys w1 e w2 :
  list_comprehension f pre w = Returns ys w1 →
  f x w1 = Raises e w2 →
  list_comprehension f (pre ++ x :: post) w = Raises e w2.
Proof.
  intros Hpre Hx. rewrite list_comprehension_app. unfold mbind, eval_bind.
  rewrite Hpre. simpl. unfold mbind, eval_bind. by rewrite Hx.
Qed.
End MoreLoops.

(** ** Exceptions of the callbacks *)

(** X1.  When the metric raises on a comparison model after returning on
    all the models before it, [similarity_evaluation] raises that exception
    in the state the failing call left: the models after it are not
    evaluated, whatever they are. *)
Theorem similarity_evaluation_raises
    {CPTensor Similarity KwValue World Exn : Type}
    (factor_match_score :
       CPTensor → CPTensor → gmap string KwValue → eval World Exn Similarity)
    (cp_tensor : CPTensor) (before : list CPTensor) (failing : CPTensor)
    (after : list CPTensor)
    (similarity_metric :
       option (CPTensor → CPTensor → gmap string KwValue → eval World Exn Similarity))
    (kwargs : gmap string KwValue)
    (w : World) (similarity : list Similarity) (w1 : World) (e : Exn) (w2 : World) :
  similarity_evaluation factor_match_score cp_tensor before similarity_metric kwargs w
    = Returns similarity w1 →
  default factor_match_score similarity_metric cp_tensor failing kwargs w1
    = Raises e w2 →
  similarity_evaluation factor_match_score cp_tensor (before ++ failing :: after)
    similarity_metric kwargs w
    = Raises e w2.
Proof.
  unfold similarity_evaluation. intros Hbefore Hfailing.
  by eapply list_comprehension_raises.
Qed.

Lemma similarity_evaluation_raises_witness :
  similarity_evaluation Sample.no_metric 0 ([1] ++ 2 :: [3; 4])
    (Some (Failing.metric 2)) ∅ []
  = Raises "ValueError"%string [(0, 1, ∅); (0, 2, ∅)].
Proof.
  apply (similarity_evaluation_raises Sample.no_metric 0 [1] 2 [3; 4]
           (Some (Failing.metric 2)) ∅ [] [1] [(0, 1, ∅)]).
  - reflexivity.
  - reflexivity.
Defined.

(** X2.  When the error function raises on a model after returning on all
    the models before it, [get_model_with_lowest_error] and
    [sort_models_by_error] raise that exception in the state the failing
    call left: no selection is returned, no model after it is evaluated and
    nothing is sorted. *)
Theorem error_function_raises
    {CPTensor Dataset World Exn : Type}
    (relative_sse : CPTensor → Dataset → eval World Exn error_value)
    (cp_tensor_eq cp_tensor_lt : CPTensor → CPTensor → Exn + bool)
    (before : list CPTensor) (failing : CPTensor) (after : list CPTensor)
    (X : Dataset)
    (error_function : option (CPTensor → Dataset → eval World Exn error_value))
    (w : World) (errors : list error_value) (w1 : World) (e : Exn) (w2 : World) :
  error_calls (default relative_sse error_function) X before w = Returns errors w1 →
  default relative_sse error_function failing X w1 = Raises e w2 →
  get_model_with_lowest_error relative_sse (before ++ failing :: after) X
    error_function w = Raises e w2 ∧
  sort_models_by_error relative_sse cp_tensor_eq cp_tensor_lt
    (before ++ failing :: after) X error_function w = Raises e w2.
Proof.
  intros Hbefore Hfailing.
  assert (Hcalls : error_calls (default relative_sse error_function) X
                     (before ++ failing :: after) w = Raises e w2).
  { unfold error_calls in *. by eapply list_comprehension_raises. }
  split.
  - pose proof (get_model_with_lowest_error_spec relative_sse
                  (before ++ failing :: after) X error_function w) as H.
    by rewrite Hcalls in H.
  - by rewrite sort_models_by_error_spec, Hcalls.
Qed.

Lemma error_function_raises_witness :
  get_model_with_lowest_error Sample.no_error_function ([0; 1] ++ 2 :: [3])
    Sample.dataset (Some (Failing.error_function 2 Sample.errors_5_2_8_2)) []
  = Raises "ValueError"%string (Sample.calls 3) ∧
  sort_models_by_error Sample.no_error_function Sample.array_eq Sample.array_lt
    ([0; 1] ++ 2 :: [3])
    Sample.dataset (Some (Failing.error_function 2 Sample.errors_5_2_8_2)) []
  = Raises "ValueError"%string (Sample.calls 3).
Proof.
  apply (error_function_raises Sample.no_error_function
           Sample.array_eq Sample.array_lt [0; 1] 2 [3] Sample.dataset
           (Some (Failing.error_function 2 Sample.errors_5_2_8_2)) []
           [Sample.float 5; Sample.float 2] (Sample.calls 2)).
  - vm_compute. reflexivity.
  - reflexivity.
Defined.

(** ** What [get_model_with_lowest_error] selects *)

(** What a result of [get_model_with_lowest_error] is made of. *)
Lemma get_model_with_lowest_error_returns_inv
    {CPTensor Dataset World Exn : Type}
    (relative_sse : CPTensor → Dataset → eval World Exn error_value)
    (cp_tensors : list CPTensor) (X : Dataset)
    (error_function : option (CPTensor → Dataset → eval World Exn error_value))
    (w : World) (selected : option CPTensor) (index : option nat)
    (errors : list error_value) (w' : World) :
  get_model_with_lowest_error relative_sse cp_tensors X error_function w
    = Returns (selected, index, errors) w' →
  ∃ st,
    error_calls (default relative_sse error_function) X cp_tensors w
      = Returns errors w' ∧
    selection_invariant cp_tensors errors st ∧
    selected = selected_cp_tensor st ∧ index = selected_index st.
Proof.
  intros Hrun.
  pose proof (get_model_with_lowest_error_spec relative_sse
                cp_tensors X error_function w) as H.
  destruct (error_calls _ X cp_tensors w) as [errors0 w0|]; [ | congruence ].
  destruct H as (st & H & Hinv). rewrite H in Hrun. simplify_eq. by exists st.
Qed.

Lemma selection_invariant_model {CPTensor} (cp_tensors : list CPTensor)
    (errors : list error_value) (st : locals CPTensor) (k : nat) :
  selection_invariant cp_tensors errors st → selected_index st = Some k →
  is_Some (cp_tensors !! k) ∧ selected_cp_tensor st = cp_tensors !! k.
Proof.
  intros [_ _ _ [(_ & ? & _)|(k' & m & ? & Hm & Hk & _)]] ?; simplify_eq.
  rewrite Hm, Hk. split; [ by eexists | done ].
Qed.

(** X3.  In every result of [get_model_with_lowest_error] the model and the
    index are both [None] or both given; they are [None] exactly when no
    error is below [np.inf]; and an index given is a place of the list of
    models, the model returned is the one at that place, and its error is
    the first minimum of the errors. *)
Theorem get_model_with_lowest_error_selected
    {CPTensor Dataset World Exn : Type}
    (relative_sse : CPTensor → Dataset → eval World Exn error_value)
    (cp_tensors : list CPTensor) (X : Dataset)
    (error_function : option (CPTensor → Dataset → eval World Exn error_value))
    (w : World) (selected : option CPTensor) (index : option nat)
    (errors : list error_value) (w' : World) :
  get_model_with_lowest_error relative_sse cp_tensors X error_function w
    = Returns (selected, index, errors) w' →
  (selected = None ↔ index = None) ∧
  (index = None ↔ Forall (λ e, err_lt e np_inf = false) errors) ∧
  (∀ i, index = Some i →
     is_Some (cp_tensors !! i) ∧ selected = cp_tensors !! i ∧
     first_minimum errors i).
Proof.
  intros (st & _ & Hinv & -> & ->)%get_model_with_lowest_error_returns_inv.
  pose proof Hinv as [_ _ Hlow [(-> & -> & Hinf)|(k & m & -> & -> & Hm & Hk & Hlt & ?)]].
  - split_and!; [ done | | done ].
    split; [ intros _ | done ]. apply Forall_lookup. intros j e Hj.
    rewrite <- Hinf. eauto.
  - split_and!; [ done | | ].
    + split; [ done | ]. rewrite Forall_lookup. intros Hall.
      by rewrite (Hall k _ Hk) in Hlt.
    + intros i [= <-]. split_and!; [ by eexists | done | ].
      exists (lowest_sse st). split_and!; done.
Qed.

Lemma get_model_with_lowest_error_selected_witness :
  (Some 1 = None ↔ Some 1 = None) ∧
  (Some 1 = None ↔ Forall (λ e, err_lt e np_inf = false) Sample.errors_5_2_8_2) ∧
  (∀ i, Some 1 = Some i →
     is_Some ([0; 1; 2; 3] !! i) ∧ Some 1 = [0; 1; 2; 3] !! i ∧
     first_minimum Sample.errors_5_2_8_2 i).
Proof.
  apply (get_model_with_lowest_error_selected
           Sample.no_error_function [0; 1; 2; 3] Sample.dataset
           (Some (logged2 (Sample.table_error Sample.errors_5_2_8_2))) []
           (Some 1) (Some 1) Sample.errors_5_2_8_2 (Sample.calls 4)).
  vm_compute. reflexivity.
Defined.

Lemma first_minimum_prefix (errors1 errors2 : list error_value) (i : nat) :
  first_minimum (errors1 ++ errors2) i → i < length errors1 →
  first_minimum errors1 i.
Proof.
  intros (e & Hi & Hinf & Hmin & Hfirst) Hlt. exists e.
  rewrite lookup_app_l in Hi by done. split_and!; [ done | done | | ].
  - intros j e' Hj. apply (Hmin j). by apply lookup_app_l_Some.
  - intros j e' Hji Hj. apply (Hfirst j); [ done | ]. by apply lookup_app_l_Some.
Qed.

(** X4.  A selection among the first models of a list is the selection on
    those models alone: when [get_model_with_lowest_error] on models
    followed by further models selects one of the former, then on the
    former alone it selects the same model and index, with the errors of
    those models. *)
Theorem get_model_with_lowest_error_prefix
    {CPTensor Dataset World Exn : Type}
    (relative_sse : CPTensor → Dataset → eval World Exn error_value)
    (cp_tensors further : list CPTensor) (X : Dataset)
    (error_function : option (CPTensor → Dataset → eval World Exn error_value))
    (w : World) (selected : option CPTensor) (i : nat)
    (errors : list error_value) (w' : World) :
  get_model_with_lowest_error relative_sse (cp_tensors ++ further) X
    error_function w = Returns (selected, Some i, errors) w' →
  i < length cp_tensors →
  ∃ w1,
    get_model_with_lowest_error relative_sse cp_tensors X error_function w
      = Returns (selected, Some i, take (length cp_tensors) errors) w1.
Proof.
  intros Hrun Hi.
  destruct (get_model_with_lowest_error_returns_inv relative_sse _ _ _ _ _ _ _ _ Hrun)
    as (st0 & _ & Hinv0 & -> & Hindex).
  symmetry in Hindex.
  destruct (selection_invariant_model _ _ _ _ Hinv0 Hindex) as [_ Hmodel].
  pose proof (selection_invariant_first_minimum _ _ _ _ Hinv0 Hindex) as Hmin.
  rewrite Hmodel in Hrun |- *. clear Hinv0 Hindex Hmodel st0.
  pose proof (get_model_with_lowest_error_spec relative_sse
                (cp_tensors ++ further) X error_function w) as Hall.
  pose proof (get_model_with_lowest_error_spec relative_sse
                cp_tensors X error_function w) as Hpre.
  unfold error_calls in *. rewrite list_comprehension_app in Hall.
  unfold mbind, eval_bind in Hall.
  destruct (list_comprehension _ cp_tensors w) as [errors1 w1|] eqn:Hcalls1;
    [ | congruence ].
  destruct (list_comprehension _ further w1) as [errors2 w2|]; [ | congruence ].
  simpl in Hall. destruct Hall as (st & Hst & _). rewrite Hst in Hrun.
  injection Hrun as _ _ <- <-.
  assert (Hlen : length errors1 = length cp_tensors)
    by by eapply list_comprehension_length.
  rewrite <- Hlen, take_app_length.
  apply first_minimum_prefix in Hmin; [ | lia ].
  destruct Hpre as (st1 & -> & Hinv1). exists w1.
  rewrite lookup_app_l by done.
  destruct (inv_selected _ _ _ Hinv1)
    as [(_ & Hnone & Hinf)|(k & m & Hk & Hm & Hkm & _)].
  - destruct Hmin as (e & He & Hlt & _).
    pose proof (inv_lowest _ _ _ Hinv1 i e He) as Hlow.
    rewrite Hinf in Hlow. congruence.
  - assert (first_minimum errors1 k)
      by by eapply selection_invariant_first_minimum.
    assert (k = i) as -> by by eapply first_minimum_unique.
    by rewrite Hk, Hm, Hkm.
Qed.

Lemma get_model_with_lowest_error_prefix_witness :
  ∃ w1,
    Sample.run_lowest Sample.errors_5_2_8_2 [0; 1; 2]
    = Returns (Some 1, Some 1, take 3 Sample.errors_5_2_8_2) w1.
Proof.
  apply (get_model_with_lowest_error_prefix
           Sample.no_error_function [0; 1; 2] [3] Sample.dataset
           (Some (logged2 (Sample.table_error Sample.errors_5_2_8_2))) []
           (Some 1) 1 Sample.errors_5_2_8_2 (Sample.calls 4)).
  - vm_compute. reflexivity.
  - simpl. lia.
Defined.

(** ** Composition *)

(** X6.  [similarity_evaluation] on a list of comparison models followed
    by another is the evaluation on the first list and then, from the state
    reached, on the second, with the similarities of the first followed by
    those of the second; it raises as soon as one of the two does. *)
Theorem similarity_evaluation_app
    {CPTensor Similarity KwValue World Exn : Type}
    (factor_match_score :
       CPTensor → CPTensor → gmap string KwValue → eval World Exn Similarity)
    (cp_tensor : CPTensor) (comparison1 comparison2 : list CPTensor)
    (similarity_metric :
       option (CPTensor → CPTensor → gmap string KwValue → eval World Exn Similarity))
    (kwargs : gmap string KwValue) (w : World) :
  similarity_evaluation factor_match_score cp_tensor (comparison1 ++ comparison2)
    similarity_metric kwargs w
  = match similarity_evaluation factor_match_score cp_tensor comparison1
            similarity_metric kwargs w with
    | Returns similarity1 w1 =>
        match similarity_evaluation factor_match_score cp_tensor comparison2
                similarity_metric kwargs w1 with
        | Returns similarity2 w2 => Returns (similarity1 ++ similarity2) w2
        | Raises e w2 => Raises e w2
        end
    | Raises e w1 => Raises e w1
    end.
Proof.
  unfold similarity_evaluation. rewrite list_comprehension_app.
  unfold mbind, eval_bind.
  destruct (list_comprehension _ comparison1 w) as [s1 w1|]; [ | done ].
  by destruct (list_comprehension _ comparison2 w1).
Qed.

(** ** More on [sorted] *)

Section MoreSorted.
Context {Exn A : Type}.
Implicit Types (lt : A → A → Exn + bool) (x y : A) (l racc : list A).

(** The sort asks only for comparisons of a later item with an earlier
    one: two orders that agree on these sort alike. *)
Lemma insert_from_right_ext lt lt' x racc :
  Forall (λ y, lt x y = lt' x y) racc →
  insert_from_right lt x racc = insert_from_right lt' x racc.
Proof.
  induction 1 as [|y racc Hy _ IH]; simpl; [ done | ].
  by rewrite Hy, IH.
Qed.

Lemma sort_onto_ext lt lt' racc l :
  Forall (λ x, Forall (λ y, lt x y = lt' x y) racc) l →
  ForallOrdPairs (λ x x', lt x' x = lt' x' x) l →
  sort_onto lt racc l = sort_onto lt' racc l.
Proof.
  revert racc. induction l as [|x l IH]; intros racc Hracc Hl; simpl; [ done | ].
  apply Forall_cons in Hracc as [Hx Hracc]. inversion_clear Hl as [|? ? Hxl Hl'].
  rewrite <- (insert_from_right_ext lt lt' x racc Hx).
  destruct (insert_from_right lt x racc) as [|racc'] eqn:Hins; simpl; [ done | ].
  apply IH; [ | done ].
  rewrite Forall_forall in Hracc, Hxl. apply Forall_forall. intros x' Hx'.
  rewrite (insert_from_right_perm _ _ _ _ Hins). constructor; eauto.
Qed.

Lemma sorted_ext lt lt' l :
  ForallOrdPairs (λ x x', lt x' x = lt' x' x) l → sorted lt l = sorted lt' l.
Proof.
  intros Hl. unfold sorted. rewrite (sort_onto_ext lt lt' [] l); [ done | | done ].
  apply Forall_forall. intros. constructor.
Qed.

(** Items none of which is below the one before it are left where they
    are. *)
Lemma sort_onto_in_order lt racc l :
  Sorted (λ a b, lt b a = inr false) l →
  (∀ y x, head racc = Some y → head l = Some x → lt x y = inr false) →
  sort_onto lt racc l = inr (reverse l ++ racc).
Proof.
  intros Hl. revert racc. induction Hl as [|x l Hl IH Hx]; intros racc Hhd; simpl.
  - done.
  - assert (Hins : insert_from_right lt x racc = inr (x :: racc)).
    { destruct racc as [|y racc]; simpl; [ done | ].
      by rewrite (Hhd y x eq_refl eq_refl). }
    rewrite Hins. simpl. rewrite IH.
    + by rewrite reverse_cons, <- app_assoc.
    + intros y x' [= <-] Hx'. destruct Hx as [|x'' l' Hx'']; simpl in *; by simplify_eq.
Qed.

Lemma sorted_in_order lt l :
  Sorted (λ a b, lt b a = inr false) l → sorted lt l = inr l.
Proof.
  intros Hl. unfold sorted. rewrite (sort_onto_in_order lt [] l Hl) by done.
  simpl. by rewrite app_nil_r, reverse_involutive.
Qed.
End MoreSorted.

Section MorePositions.
Context {A : Type} (R : relation A).

Lemma Sorted_from_lookup (l : list A) :
  (∀ i x y, l !! i = Some x → l !! S i = Some y → R x y) → Sorted R l.
Proof.
  induction l as [|a l IH]; intros H; constructor.
  - apply IH. intros i x y. apply (H (S i)).
  - destruct l as [|b l]; constructor. by apply (H 0).
Qed.

Lemma ForallOrdPairs_positions (l : list A) i j x y :
  ForallOrdPairs R l → i < j → l !! i = Some x → l !! j = Some y → R x y.
Proof.
  intros Hl. revert i j. induction Hl as [|a l Ha Hl IH]; intros i j Hij Hi Hj.
  - done.
  - destruct j as [|j]; [ lia | ]. destruct i as [|i]; simpl in *.
    + simplify_eq. rewrite Forall_lookup in Ha. eauto.
    + apply (IH i j); [ lia | done | done ].
Qed.

Lemma ForallOrdPairs_perm `{!Symmetric R} (l l' : list A) :
  l ≡ₚ l' → ForallOrdPairs R l → ForallOrdPairs R l'.
Proof.
  induction 1 as [|a l l' Hperm IH|a b l|l1 l2 l3 _ IH1 _ IH2]; intros Hl.
  - done.
  - inversion_clear Hl as [|? ? Ha Hl']. constructor; [ by rewrite <- Hperm | eauto ].
  - inversion_clear Hl as [|? ? H1 Hl']. inversion_clear Hl' as [|? ? H2 Hl''].
    apply Forall_cons in H1 as [H12 H1].
    constructor; [ constructor; [ by symmetry | done ] | by constructor ].
  - eauto.
Qed.
End MorePositions.

(** ** More on [sort_models_by_error] *)

Lemma err_eq_false_sym (a b : error_value) : err_eq a b = false → err_eq b a = false.
Proof.
  intros Hab. destruct (err_eq b a) eqn:Hba; [ | done ].
  by rewrite (err_eq_sym _ _ Hba) in Hab.
Qed.

Lemma pairwise_distinct_zip {CPTensor} (errors : list error_value)
    (cp_tensors : list CPTensor) :
  pairwise_distinct errors →
  ForallOrdPairs (λ p q : error_value * CPTensor, err_eq p.1 q.1 = false)
    (zip errors cp_tensors).
Proof.
  intros Hdistinct. apply ForallOrdPairs_lookup. intros i j [e1 m1] [e2 m2] Hij Hi Hj.
  apply lookup_zip_with_Some in Hi as (? & ? & [= <- <-] & ? & ?).
  apply lookup_zip_with_Some in Hj as (? & ? & [= <- <-] & ? & ?).
  apply (Hdistinct i j); [ lia | done | done ].
Qed.

(** X7.  When no error is NaN and no two models have equal errors,
    [sort_models_by_error] never compares two models: it returns, with one
    and the same result whatever [==] and [<] do on the models, also when
    they raise, and the errors returned are strictly increasing. *)
Theorem sort_models_by_error_distinct
    {CPTensor Dataset World Exn : Type}
    (relative_sse : CPTensor → Dataset → eval World Exn error_value)
    (cp_tensors : list CPTensor) (X : Dataset)
    (error_function : option (CPTensor → Dataset → eval World Exn error_value))
    (w : World) (errors : list error_value) (w' : World) :
  error_calls (default relative_sse error_function) X cp_tensors w
    = Returns errors w' →
  Forall (λ e, err_is_nan e = false) errors →
  pairwise_distinct errors →
  ∃ sorted_models sorted_errors,
    (∀ cp_tensor_eq cp_tensor_lt,
       sort_models_by_error relative_sse cp_tensor_eq cp_tensor_lt
         cp_tensors X error_function w
       = Returns (sorted_models, sorted_errors) w') ∧
    (∀ i j a b, i < j →
       sorted_errors !! i = Some a → sorted_errors !! j = Some b →
       err_lt a b = true).
Proof.
  intros Hcalls Hnan Hdistinct.
  pose proof (pairwise_distinct_zip errors cp_tensors Hdistinct) as Hzip.
  set (by_error := λ p q : error_value * CPTensor,
                     inr (err_lt p.1 q.1) : Exn + bool).
  assert (Hext : ∀ cp_tensor_eq cp_tensor_lt,
            sorted (tuple_lt cp_tensor_eq cp_tensor_lt) (zip errors cp_tensors)
            = sorted by_error (zip errors cp_tensors)).
  { intros cp_tensor_eq cp_tensor_lt. apply sorted_ext, ForallOrdPairs_lookup.
    intros i j p q Hij Hi Hj. apply tuple_lt_differ, err_eq_false_sym.
    by eapply (ForallOrdPairs_positions _ _ i j p q Hzip). }
  destruct (sorted_returns by_error (zip errors cp_tensors)) as [s Hs].
  { apply ForallOrdPairs_lookup. intros. by eexists. }
  exists (s.*2), ((λ p, np_asarray_item p.1) <$> s). split.
  - intros cp_tensor_eq cp_tensor_lt.
    by rewrite sort_models_by_error_spec, Hcalls, Hext, Hs.
  - intros i j a b Hij Hi Hj.
    set (cp_tensor_eq := λ _ _ : CPTensor, inr true : Exn + bool).
    set (cp_tensor_lt := λ _ _ : CPTensor, inr false : Exn + bool).
    rewrite <- (Hext cp_tensor_eq cp_tensor_lt) in Hs.
    pose proof (sorted_errors_non_decreasing cp_tensor_eq cp_tensor_lt
                  _ _ _ Hnan Hs i j a b Hij Hi Hj) as Hle.
    apply list_lookup_fmap_Some in Hi as (p & -> & Hi).
    apply list_lookup_fmap_Some in Hj as (q & -> & Hj).
    assert (Hne : err_eq p.1 q.1 = false).
    { apply (ForallOrdPairs_positions
               (λ p q : error_value * CPTensor, err_eq p.1 q.1 = false) s i j);
        [ | done.. ].
      eapply ForallOrdPairs_perm; [ | | exact Hzip ].
      - intros ? ?. apply err_eq_false_sym.
      - symmetry. by eapply sorted_perm. }
    rewrite err_le_item, err_le_lt_eq in Hle.
    apply orb_true_iff in Hle as [Hlt|Heq]; [ | congruence ].
    unfold err_lt in *. by rewrite !unbox_item.
Qed.

Lemma sort_models_by_error_distinct_witness :
  ∃ sorted_models sorted_errors,
    (∀ cp_tensor_eq cp_tensor_lt,
       sort_models_by_error Sample.no_error_function cp_tensor_eq cp_tensor_lt
         [0; 1; 2; 3] Sample.dataset
         (Some (logged2 (Sample.table_error Sample.errors_30_10_40_20))) []
       = Returns (sorted_models, sorted_errors) (Sample.calls 4)) ∧
    (∀ i j a b, i < j →
       sorted_errors !! i = Some a → sorted_errors !! j = Some b →
       err_lt a b = true).
Proof.
  apply (sort_models_by_error_distinct Sample.no_error_function
           [0; 1; 2; 3] Sample.dataset
           (Some (logged2 (Sample.table_error Sample.errors_30_10_40_20))) []
           Sample.errors_30_10_40_20 (Sample.calls 4)).
  - vm_compute. reflexivity.
  - repeat constructor.
  - intros i j e1 e2 Hij Hi Hj.
    destruct i as [|[|[|[|i]]]]; try discriminate Hi;
      destruct j as [|[|[|[|j]]]]; try discriminate Hj;
      try (exfalso; apply Hij; reflexivity);
      injection Hi as <-; injection Hj as <-; vm_compute; reflexivity.
Defined.

(** X8.  When no error is NaN and no error is below or equal to the error
    of the model just before it, [sort_models_by_error] returns the models
    in the order given, with the items of their errors, without comparing
    two models. *)
Theorem sort_models_by_error_in_order
    {CPTensor Dataset World Exn : Type}
    (relative_sse : CPTensor → Dataset → eval World Exn error_value)
    (cp_tensor_eq cp_tensor_lt : CPTensor → CPTensor → Exn + bool)
    (cp_tensors : list CPTensor) (X : Dataset)
    (error_function : option (CPTensor → Dataset → eval World Exn error_value))
    (w : World) (errors : list error_value) (w' : World) :
  error_calls (default relative_sse error_function) X cp_tensors w
    = Returns errors w' →
  Forall (λ e, err_is_nan e = false) errors →
  never_steps_down errors →
  sort_models_by_error relative_sse cp_tensor_eq cp_tensor_lt
    cp_tensors X error_function w
  = Returns (cp_tensors, np_asarray_item <$> errors) w'.
Proof.
  intros Hcalls _ Horder.
  assert (Hlen : length errors = length cp_tensors)
    by by eapply list_comprehension_length.
  rewrite sort_models_by_error_spec, Hcalls, sorted_in_order.
  - rewrite snd_zip by lia. rewrite <- (fst_zip errors cp_tensors) at 2 by lia.
    by rewrite <- list_fmap_compose.
  - apply Sorted_from_lookup. intros i [e1 m1] [e2 m2] Hi Hj.
    apply lookup_zip_with_Some in Hi as (? & ? & [= <- <-] & Hi & _).
    apply lookup_zip_with_Some in Hj as (? & ? & [= <- <-] & Hj & _).
    destruct (Horder i e1 e2 Hi Hj) as [Hne Hnlt].
    rewrite tuple_lt_differ by done. simpl. by rewrite Hnlt.
Qed.

Lemma sort_models_by_error_in_order_witness :
  Sample.run_sort Sample.array_eq Sample.array_lt Sample.errors_10_20_30_40
    [0; 1; 2; 3]
  = Returns ([0; 1; 2; 3], np_asarray_item <$> Sample.errors_10_20_30_40)
      (Sample.calls 4).
Proof.
  apply (sort_models_by_error_in_order Sample.no_error_function
           Sample.array_eq Sample.array_lt [0; 1; 2; 3] Sample.dataset
           (Some (logged2 (Sample.table_error Sample.errors_10_20_30_40))) []).
  - vm_compute. reflexivity.
  - repeat constructor.
  - intros i a b Hi Hj.
    destruct i as [|[|[|[|i]]]]; try discriminate Hj;
      injection Hi as <-; injection Hj as <-; vm_compute; split; reflexivity.
Defined.

(** X9.  The two functions agree on the lowest error: when no error is NaN
    and both return on the same input, the first error that
    [sort_models_by_error] returns equals the error of the model that
    [get_model_with_lowest_error] selects; and when no other model has that
    error, the first model returned is the selected model. *)
Theorem sort_models_by_error_lowest_first
    {CPTensor Dataset World Exn : Type}
    (relative_sse : CPTensor → Dataset → eval World Exn error_value)
    (cp_tensor_eq cp_tensor_lt : CPTensor → CPTensor → Exn + bool)
    (cp_tensors : list CPTensor) (X : Dataset)
    (error_function : option (CPTensor → Dataset → eval World Exn error_value))
    (w : World) (selected : option CPTensor) (i : nat)
    (errors : list error_value) (w' : World)
    (sorted_models : list CPTensor) (sorted_errors : list error_value)
    (w'' : World) :
  get_model_with_lowest_error relative_sse cp_tensors X error_function w
    = Returns (selected, Some i, errors) w' →
  sort_models_by_error relative_sse cp_tensor_eq cp_tensor_lt
    cp_tensors X error_function w
    = Returns (sorted_models, sorted_errors) w'' →
  Forall (λ e, err_is_nan e = false) errors →
  ∃ e0 e,
    sorted_errors !! 0 = Some e0 ∧ errors !! i = Some e ∧
    err_eq e0 e = true ∧
    ((∀ j e', errors !! j = Some e' → err_eq e' e = true → j = i) →
     sorted_models !! 0 = selected).
Proof.
  intros (st & Hcalls & Hinv & -> & Hindex)%get_model_with_lowest_error_returns_inv
         (errors0 & s & Hcalls0 & Hlen & Hs & -> & ->)%sort_models_by_error_returns_inv
         Hnan.
  rewrite Hcalls in Hcalls0. injection Hcalls0 as <- <-. symmetry in Hindex.
  destruct (selection_invariant_model _ _ _ _ Hinv Hindex) as [[m Hm] ->].
  pose proof (selection_invariant_first_minimum _ _ _ _ Hinv Hindex) as Hmin.
  apply first_minimum_least in Hmin as (e & He & Hleast & _); [ | done ].
  pose proof (sorted_perm _ _ _ Hs) as Hperm.
  pose proof (sorted_errors_non_decreasing _ _ _ _ _ Hnan Hs) as Hsorted.
  (* the selected entry is somewhere in the result *)
  assert (Hin : (e, m) ∈ s).
  { rewrite Hperm. apply list_elem_of_lookup. exists i.
    apply lookup_zip_with_Some. eauto. }
  apply list_elem_of_lookup in Hin as [k Hk].
  destruct s as [|[e0 m0] s']; [ done | ].
  (* the first entry of the result is one of the input *)
  assert (Hin0 : (e0, m0) ∈ zip errors cp_tensors) by (rewrite <- Hperm; left).
  apply list_elem_of_lookup in Hin0 as [j Hj].
  apply lookup_zip_with_Some in Hj as (? & ? & [= <- <-] & Hje & Hjm).
  assert (Heq : err_eq (np_asarray_item e0) e = true).
  { unfold err_eq. rewrite unbox_item. apply err_le_antisym.
    - destruct k as [|k].
      + simpl in Hk. injection Hk as -> ->.
        apply (Hleast i e He).
      + rewrite <- err_le_item.
        apply (Hsorted 0 (S k)); [ lia | done | ].
        apply list_lookup_fmap_Some. by exists (e, m).
    - apply (Hleast j e0 Hje). }
  exists (np_asarray_item e0), e. split_and!; [ done | done | done | ].
  intros Hunique. simpl. rewrite Hm. f_equal.
  assert (j = i) as ->.
  { apply (Hunique j e0 Hje). unfold err_eq in Heq |- *.
    by rewrite unbox_item in Heq. }
  congruence.
Qed.

Lemma sort_models_by_error_lowest_first_witness :
  ∃ e0 e,
    Sample.errors_10_20_30_40 !! 0 = Some e0 ∧
    Sample.errors_30_10_40_20 !! 1 = Some e ∧
    err_eq e0 e = true ∧
    ((∀ j e', Sample.errors_30_10_40_20 !! j = Some e' →
        err_eq e' e = true → j = 1) →
     [1; 3; 0; 2] !! 0 = Some 1).
Proof.
  apply (sort_models_by_error_lowest_first Sample.no_error_function
           Sample.array_eq Sample.array_lt [0; 1; 2; 3] Sample.dataset
           (Some (logged2 (Sample.table_error Sample.errors_30_10_40_20))) []
           (Some 1) 1 Sample.errors_30_10_40_20 (Sample.calls 4)
           [1; 3; 0; 2] Sample.errors_10_20_30_40 (Sample.calls 4)).
  - vm_compute. reflexivity.
  - vm_compute. reflexivity.
  - repeat constructor.
Defined.

(** ** Selections on parts of a list *)

(** The invariant leaves one selection only. *)
Lemma selection_invariant_determined {CPTensor} (cp_tensors : list CPTensor)
    (errors : list error_value) (st : locals CPTensor)
    (selected : option CPTensor) (index : option nat) :
  selection_invariant cp_tensors errors st →
  (index = None ∧ selected = None ∧
   ∀ j e', errors !! j = Some e' → err_lt e' np_inf = false) ∨
  (∃ k, index = Some k ∧ first_minimum errors k ∧ selected = cp_tensors !! k) →
  (selected_cp_tensor st, selected_index st) = (selected, index).
Proof.
  intros Hinv [(-> & -> & Hnone)|(k & -> & Hmin & ->)].
  - destruct (inv_selected _ _ _ Hinv)
      as [(-> & -> & _)|(k & m & _ & _ & _ & Hk & Hlt & _)]; [ done | ].
    by rewrite (Hnone k _ Hk) in Hlt.
  - destruct (selected_index st) as [k'|] eqn:Hindex.
    + pose proof (selection_invariant_first_minimum _ _ _ _ Hinv Hindex).
      destruct (selection_invariant_model _ _ _ _ Hinv Hindex) as [_ ->].
      by rewrite (first_minimum_unique errors k' k).
    + destruct Hmin as (e & He & Hlt & _).
      destruct (inv_selected _ _ _ Hinv) as [(_ & _ & Hinf)|(? & ? & ? & _)];
        [ | congruence ].
      pose proof (inv_lowest _ _ _ Hinv k e He) as Hlow.
      rewrite Hinf in Hlow. congruence.
Qed.

Lemma selection_invariant_lowest_error {CPTensor} (cp_tensors : list CPTensor)
    (errors : list error_value) (st : locals CPTensor) :
  selection_invariant cp_tensors errors st →
  lowest_error (selected_index st) errors = lowest_sse st.
Proof.
  intros Hinv. unfold lowest_error.
  destruct (inv_selected _ _ _ Hinv)
    as [(_ & -> & ->)|(k & m & -> & _ & _ & Hk & _)]; [ done | ].
  simpl. by rewrite Hk.
Qed.

(** X10.  The selection on models followed by further models is made of
    the selections on the two parts: when [get_model_with_lowest_error]
    returns on the first models, and on the further ones from the state
    then reached, it returns on all of them, with the errors of the first
    followed by those of the further ones, and selects the model of the
    second result if that has an error below the error of the first
    selection, and the model of the first result otherwise. *)
Theorem get_model_with_lowest_error_app
    {CPTensor Dataset World Exn : Type}
    (relative_sse : CPTensor → Dataset → eval World Exn error_value)
    (cp_tensors further : list CPTensor) (X : Dataset)
    (error_function : option (CPTensor → Dataset → eval World Exn error_value))
    (w : World) (first second : option CPTensor * option nat * list error_value)
    (w1 w2 : World) :
  get_model_with_lowest_error relative_sse cp_tensors X error_function w
    = Returns first w1 →
  get_model_with_lowest_error relative_sse further X error_function w1
    = Returns second w2 →
  get_model_with_lowest_error relative_sse (cp_tensors ++ further) X
    error_function w
  = Returns (combine_selection (length cp_tensors) first second,
             first.2 ++ second.2) w2.
Proof.
  destruct first as [[selA idxA] errorsA], second as [[selB idxB] errorsB].
  intros (stA & HcallsA & HinvA & -> & ->)%get_model_with_lowest_error_returns_inv
         (stB & HcallsB & HinvB & -> & ->)%get_model_with_lowest_error_returns_inv.
  pose proof (get_model_with_lowest_error_spec relative_sse
                (cp_tensors ++ further) X error_function w) as Hall.
  unfold error_calls in *. rewrite list_comprehension_app in Hall.
  unfold mbind, eval_bind in Hall. rewrite HcallsA, HcallsB in Hall. simpl in Hall.
  destruct Hall as (st & -> & Hinv). simpl. do 2 f_equal.
  pose proof (λ selected index,
                selection_invariant_determined _ _ _ selected index Hinv)
    as Hdetermined.
  unfold combine_selection. simpl.
  rewrite (selection_invariant_lowest_error _ _ _ HinvA).
  rewrite (selection_invariant_lowest_error _ _ _ HinvB).
  pose proof (inv_length _ _ _ HinvA) as HlenA.
  pose proof (inv_lowest _ _ _ HinvA) as HlowA.
  pose proof (inv_lowest _ _ _ HinvB) as HlowB.
  assert (Hsplit : ∀ j e', (errorsA ++ errorsB) !! j = Some e' →
            errorsA !! j = Some e' ∨
            (length errorsA ≤ j ∧ errorsB !! (j - length errorsA) = Some e')).
  { intros j e' Hj. by apply lookup_app_Some in Hj. }
  (* the first selection stays *)
  assert (Hfirst : (∀ e', e' ∈ errorsB → err_lt e' (lowest_sse stA) = false) →
            (selected_index stA = None ∧ selected_cp_tensor stA = None ∧
             ∀ j e', (errorsA ++ errorsB) !! j = Some e' → err_lt e' np_inf = false) ∨
            (∃ k, selected_index stA = Some k ∧
               first_minimum (errorsA ++ errorsB) k ∧
               selected_cp_tensor stA = (cp_tensors ++ further) !! k)).
  { intros HB.
    destruct (inv_selected _ _ _ HinvA)
      as [(HselA & HidxA & HinfA)|(k & m & HidxA & HselA & Hm & Hk & Hlt & Hbefore)].
    - left. split_and!; [ done | done | ].
      rewrite HinfA in HlowA, HB.
      intros j e' [?|[_ ?]]%Hsplit; [ eauto | ].
      apply HB. by eapply list_elem_of_lookup_2.
    - right. exists k. split_and!; [ done | | ].
      + exists (lowest_sse stA). split_and!; [ | done | | ].
        * by apply lookup_app_l_Some.
        * intros j e' [?|[_ ?]]%Hsplit; [ eauto | ].
          apply HB. by eapply list_elem_of_lookup_2.
        * intros j e' Hjk [?|[? _]]%Hsplit; [ eauto | ].
          apply lookup_lt_Some in Hk. lia.
      + rewrite HselA. symmetry. by apply lookup_app_l_Some. }
  destruct (inv_selected _ _ _ HinvB)
    as [(HselB & HidxB & HinfB)|(j & m & HidxB & HselB & Hm & Hj & Hlt & Hbefore)].
  - (* nothing selected among the further models *)
    rewrite HidxB. apply Hdetermined, Hfirst. intros e' [k Hk]%list_elem_of_lookup_1.
    pose proof (HlowB k e' Hk) as He'. rewrite HinfB in He'.
    destruct (err_lt e' (lowest_sse stA)) eqn:Hlt; [ | done ].
    destruct (inv_selected _ _ _ HinvA) as [(_ & _ & HinfA)|(? & ? & _ & _ & _ & _ & HltA & _)].
    + rewrite HinfA in Hlt. congruence.
    + by rewrite (err_lt_trans _ _ _ Hlt HltA) in He'.
  - rewrite HidxB. destruct (err_lt (lowest_sse stB) (lowest_sse stA)) eqn:Hbelow.
    + (* the second selection is below the first *)
      apply Hdetermined. right. exists (length cp_tensors + j).
      split_and!; [ done | | ].
      * exists (lowest_sse stB). split_and!; [ | done | | ].
        -- rewrite <- HlenA, lookup_app_r by lia.
           by replace (length errorsA + j - length errorsA) with j by lia.
        -- intros k e' [?|[_ ?]]%Hsplit; [ | eauto ].
           eapply err_lt_lower; eauto.
        -- intros k e' Hk [?|[? ?]]%Hsplit.
           ++ eapply err_le_lower; eauto.
           ++ apply (Hbefore (k - length errorsA)); [ lia | done ].
      * rewrite HselB, lookup_app_r by lia.
        by replace (length cp_tensors + j - length cp_tensors) with j by lia.
    + (* the first selection is at most the second *)
      apply Hdetermined, Hfirst. intros e' [k Hk]%list_elem_of_lookup_1.
      destruct (err_lt e' (lowest_sse stA)) eqn:He'; [ | done ].
      pose proof (HlowB k e' Hk) as Hnot.
      apply err_lt_not_nan in He' as Hnan. destruct Hnan as [Hnan _].
      apply err_lt_not_nan in Hlt as Hnan'. destruct Hnan' as [Hnan' _].
      pose proof (err_le_total _ _ Hnan Hnan' Hnot) as Hle.
      by rewrite (err_le_lt_trans _ _ _ Hle He') in Hbelow.
Qed.

Lemma get_model_with_lowest_error_app_witness :
  get_model_with_lowest_error Sample.no_error_function ([0] ++ [1; 2; 3])
    Sample.dataset (Some (logged2 (Sample.table_error Sample.errors_5_2_8_2))) []
  = Returns
      (combine_selection 1
         (Some 0, Some 0, [Sample.float 5])
         (Some 1, Some 0, [Sample.float 2; Sample.float 8; Sample.float 2]),
       [Sample.float 5] ++ [Sample.float 2; Sample.float 8; Sample.float 2])
      (Sample.calls 4).
Proof.
  apply (get_model_with_lowest_error_app Sample.no_error_function
           [0] [1; 2; 3] Sample.dataset
           (Some (logged2 (Sample.table_error Sample.errors_5_2_8_2))) []
           (Some 0, Some 0, [Sample.float 5])
           (Some 1, Some 0, [Sample.float 2; Sample.float 8; Sample.float 2])
           (Sample.calls 1)).
  - vm_compute. reflexivity.
  - vm_compute. reflexivity.
Defined.

(** ** Ties *)




Section Ties.
Context {CPTensor Exn : Type}.
Variable cp_tensor_eq cp_tensor_lt : CPTensor → CPTensor → Exn + bool.
Implicit Types (p q : error_value * CPTensor) (s : list (error_value * CPTensor)).


End Ties.


(** Models that are numbers with equal errors come out in the order of
    the numbers. *)
Example sort_tie_numbers :
  Sample.run_sort Sample.number_eq Sample.number_lt Sample.errors_tie [1; 0]
  = Returns ([0; 1], Sample.errors_tie) [(1, 0); (0, 0)].
Proof. vm_compute. reflexivity. Qed.
